(** * LUrlParser: a shallow embedding of [src/LUrlParser.cpp]

    The development follows the translation unit top to bottom: the
    C and C++ library routines the parser calls, the two helpers of the
    anonymous namespace ([isSchemeValid], [urlDecode]), the port accessor
    [getPort] and the scanner [parseURL].  Text is a list of bytes, a
    [const char*] into the NUL-terminated buffer is the suffix of the
    buffer it points at, and a call either returns, throws, or has no
    meaning in C++ ([Undefined]). *)

From Stdlib Require Import ZArith Lia List Ascii String Bool.
From stdpp Require Import gmap strings.
Import ListNotations.

Local Open Scope char_scope.
Local Open Scope list_scope.

(** ** Outcomes of a call *)

Inductive exception : Type :=
| invalid_argument (what : string)
| out_of_range (what : string).

Inductive outcome (A : Type) : Type :=
| Returned (a : A)
| Thrown (e : exception)
| Undefined.

Arguments Returned {A} a.
Arguments Thrown {A} e.
Arguments Undefined {A}.

#[global] Instance outcome_ret : MRet outcome := fun _ a => Returned a.

#[global] Instance outcome_bind : MBind outcome := fun _ _ f m =>
  match m with
  | Returned a => f a
  | Thrown e => Thrown e
  | Undefined => Undefined
  end.

#[global] Instance outcome_fmap : FMap outcome := fun _ _ f m =>
  match m with
  | Returned a => Returned (f a)
  | Thrown e => Thrown e
  | Undefined => Undefined
  end.

(** ** Text *)

(** [std::string]: a sequence of bytes, NUL allowed. *)
Abbreviation std_string := (list ascii).

(** String literals of the examples. *)
Notation "# s" := (list_ascii_of_string s) (at level 1, format "# s").

Definition NUL : ascii := "000".

(** [s.c_str()]: the C functions see the bytes up to the first NUL. *)
Fixpoint c_str (s : std_string) : list ascii :=
  match s with
  | [] => []
  | c :: s' => if (c =? NUL)%char then [] else c :: c_str s'
  end.

(** [*p] for a pointer into a NUL-terminated buffer, and [p + 1]. *)
Definition deref (p : list ascii) : ascii := hd NUL p.
Definition next (p : list ascii) : list ascii := tl p.

(** [std::string(first, last - first)] for two pointers into one buffer. *)
Definition between (first last : list ascii) : std_string :=
  firstn (length first - length last) first.

(** A loop that advances [p] while [p] points at a character other than
    NUL on which [stop] is false; returns the pointer the loop ends on. *)
Fixpoint scan (stop : ascii -> bool) (p : list ascii) : list ascii :=
  match p with
  | [] => []
  | c :: p' => if stop c then p else scan stop p'
  end.

(** ** <cctype> in the "C" locale *)

Definition code (c : ascii) : nat := nat_of_ascii c.

Definition isupper (c : ascii) : bool := (65 <=? code c)%nat && (code c <=? 90)%nat.
Definition islower (c : ascii) : bool := (97 <=? code c)%nat && (code c <=? 122)%nat.
Definition isalpha (c : ascii) : bool := isupper c || islower c.
Definition isdigit (c : ascii) : bool := (48 <=? code c)%nat && (code c <=? 57)%nat.
Definition isspace (c : ascii) : bool :=
  (code c =? 32)%nat || (9 <=? code c)%nat && (code c <=? 13)%nat.
Definition tolower (c : ascii) : ascii :=
  if isupper c then ascii_of_nat (code c + 32) else c.

(** ** <cstring>, <cstdlib>, <string> *)

(** Pointers produced on line 99: null, or the address of [URL[i]]. *)
Inductive char_ptr : Type :=
| nullptr
| at_index (i : nat).

Fixpoint find_char (c : ascii) (s : list ascii) : option nat :=
  match s with
  | [] => None
  | x :: s' => if (x =? c)%char then Some 0%nat else S <$> find_char c s'
  end.

Definition strchr (s : list ascii) (c : ascii) : char_ptr :=
  match find_char c s with
  | Some i => at_index i
  | None => nullptr
  end.

(** [p - 1].  C++ defines it only when the result stays inside the array
    (or one past it): not for the null pointer, not for the first element. *)
Definition ptr_pred (p : char_ptr) : outcome char_ptr :=
  match p with
  | nullptr => Undefined
  | at_index 0 => Undefined
  | at_index (S i) => Returned (at_index i)
  end.

Definition INT_MIN : Z := - 2 ^ 31.
Definition INT_MAX : Z := 2 ^ 31 - 1.
Definition int_representable (v : Z) : bool := (INT_MIN <=? v)%Z && (v <=? INT_MAX)%Z.

Definition digit_value (base : Z) (c : ascii) : option Z :=
  let n := Z.of_nat (code c) in
  let d := if isdigit c then Some (n - 48)%Z
           else if islower c then Some (n - 87)%Z
           else if isupper c then Some (n - 55)%Z
           else None in
  match d with
  | Some v => if (v <? base)%Z then Some v else None
  | None => None
  end.

Fixpoint skip_space (s : list ascii) : list ascii :=
  match s with
  | [] => []
  | c :: s' => if isspace c then skip_space s' else s
  end.

(** Value of the longest prefix of digits, most significant first. *)
Fixpoint digits (base : Z) (acc : Z) (s : list ascii) : Z :=
  match s with
  | [] => acc
  | c :: s' =>
      match digit_value base c with
      | Some d => digits base (acc * base + d)%Z s'
      | None => acc
      end
  end.

Definition read_sign (s : list ascii) : bool * list ascii :=
  match s with
  | c :: s' => if (c =? "-")%char then (true, s')
               else if (c =? "+")%char then (false, s') else (false, s)
  | [] => (false, s)
  end.

Definition starts_with_digit (base : Z) (s : list ascii) : bool :=
  match s with
  | c :: _ => match digit_value base c with Some _ => true | None => false end
  | [] => false
  end.

(** The subject sequence of [strtol]: white space, a sign, for base 16 an
    optional [0x], digits.  [None] when no conversion is performed. *)
Definition strtol_value (base : Z) (s : list ascii) : option Z :=
  let (neg, s1) := read_sign (skip_space s) in
  let s2 := match s1 with
            | z :: x :: s' =>
                if (base =? 16)%Z && (z =? "0")%char
                   && ((x =? "x")%char || (x =? "X")%char)
                   && starts_with_digit base s'
                then s' else s1
            | _ => s1
            end in
  if starts_with_digit base s2
  then Some (if neg then - digits base 0 s2 else digits base 0 s2)%Z
  else None.

(** [std::stoi(str, nullptr, base)]. *)
Definition stoi (str : std_string) (base : Z) : outcome Z :=
  match strtol_value base (c_str str) with
  | None => Thrown (invalid_argument "stoi")
  | Some v => if int_representable v then Returned v
              else Thrown (out_of_range "stoi")
  end.

Definition LONG_MIN : Z := - 2 ^ 63.
Definition LONG_MAX : Z := 2 ^ 63 - 1.

(** [strtol(nptr, NULL, base)] with a 64-bit [long]: zero when no
    conversion is performed, and a value outside the range of [long]
    clamped to [LONG_MIN] or [LONG_MAX]. *)
Definition strtol (nptr : list ascii) (base : Z) : Z :=
  let v := default 0%Z (strtol_value base nptr) in
  if (v <? LONG_MIN)%Z then LONG_MIN
  else if (LONG_MAX <? v)%Z then LONG_MAX
  else v.

(** [(int) v] for a [long] [v]: its low 32 bits read as a signed number. *)
Definition int_of_long (v : Z) : Z := ((v + 2 ^ 31) mod 2 ^ 32 - 2 ^ 31)%Z.

(** [atoi(nptr)].  C leaves the result open when the number does not fit
    an [int]; the C library computes [(int) strtol(nptr, NULL, 10)], and
    that is what runs on line 75. *)
Definition atoi (nptr : list ascii) : Z := int_of_long (strtol nptr 10).

(** [static_cast<char>(v)] *)
Definition char_of_int (v : Z) : ascii := ascii_of_N (Z.to_N (v mod 256)).

(** [s.substr(pos, n)] for [pos <= s.length()]. *)
Definition substr (s : std_string) (pos n : nat) : std_string :=
  firstn n (skipn pos s).

(** ** <sstream>: an input string stream and [std::getline] *)

Record sstream : Type := {
  unread : list ascii;
  eofbit : bool;
  failbit : bool
}.

Definition stringstream (s : std_string) : sstream :=
  {| unread := s; eofbit := false; failbit := false |}.

Definition good (ss : sstream) : bool := negb (eofbit ss) && negb (failbit ss).

(** [static_cast<bool>(ss)], the test of [while (std::getline(...))]. *)
Definition stream_ok (ss : sstream) : bool := negb (failbit ss).

(** Characters up to the delimiter, and what follows it when it is found. *)
Fixpoint extract (delim : ascii) (s : list ascii) : std_string * option (list ascii) :=
  match s with
  | [] => ([], None)
  | c :: s' =>
      if (c =? delim)%char then ([], Some s')
      else let (w, r) := extract delim s' in (c :: w, r)
  end.

(** [std::getline(ss, str, delim)].  The sentry fails on a stream that is
    not [good()]: [failbit] is set and [str] is left as it was.  Otherwise
    [str] is erased and filled; the delimiter is consumed; hitting the end
    sets [eofbit], and extracting nothing at all sets [failbit]. *)
Definition getline (ss : sstream) (str : std_string) (delim : ascii)
  : sstream * std_string :=
  if good ss then
    match extract delim (unread ss) with
    | (w, Some rest) => ({| unread := rest; eofbit := false; failbit := false |}, w)
    | (w, None) =>
        ({| unread := []; eofbit := true;
            failbit := match w with [] => true | _ => false end |}, w)
    end
  else ({| unread := unread ss; eofbit := eofbit ss; failbit := true |}, str).

(** ** The anonymous namespace (lines 38-70) *)

(** Lines 40-46. *)
Fixpoint isSchemeValid (schemeName : std_string) : bool :=
  match schemeName with
  | [] => true
  | c :: rest =>
      if negb (isalpha c) && negb (c =? "+")%char && negb (c =? "-")%char
         && negb (c =? ".")%char
      then false
      else isSchemeValid rest
  end.

(** Lines 48-68.  The [for] loop on the index [i]; every round advances
    [i], so [value.length()] rounds are enough (lemma [urlDecode_loop_from]). *)
Fixpoint urlDecode_loop (fuel : nat) (value : std_string) (i : nat)
    (decoded : std_string) : outcome std_string :=
  match fuel with
  | O => Returned decoded
  | S fuel' =>
      if (length value <=? i)%nat then Returned decoded
      else
        let c := nth i value NUL in
        if (c =? "%")%char then
          if (length value <=? i + 2)%nat
          then Thrown (invalid_argument "Invalid URL encoding")
          else
            hexValue ← stoi (substr value (i + 1) 2) 16;
            urlDecode_loop fuel' value (i + 2 + 1)
              (decoded ++ [char_of_int hexValue])
        else if (c =? "+")%char then
          urlDecode_loop fuel' value (i + 1) (decoded ++ [" "])
        else
          urlDecode_loop fuel' value (i + 1) (decoded ++ [c])
  end.

Definition urlDecode (value : std_string) : outcome std_string :=
  urlDecode_loop (length value) value 0 [].

(** The same loop told by the text still to read: what [urlDecode_loop]
    appends to [decoded] from the index [i] on, as a function of
    [value.substr(i)] (lemma [urlDecode_loop_from]). *)
Fixpoint decode_tail (v : list ascii) : outcome std_string :=
  match v with
  | [] => Returned []
  | c :: rest =>
      if (c =? "%")%char then
        match rest with
        | a :: b :: rest' =>
            hexValue ← stoi [a; b] 16;
            cons (char_of_int hexValue) <$> decode_tail rest'
        | _ => Thrown (invalid_argument "Invalid URL encoding")
        end
      else if (c =? "+")%char then cons " " <$> decode_tail rest
      else cons c <$> decode_tail rest
  end.

(** ** The class [LUrlParser::ParseURL] *)

(** Modelled from the spec: the enumeration [LUrlParserError] of the
    header [LUrlParser/LUrlParser.h], which is not part of the sources at
    hand.  The spec lists [Ok] and the five error classifications; the
    names are those [parseURL] uses. *)
Inductive LUrlParserError : Type :=
| LUrlParserError_Ok
| LUrlParserError_NoUrlCharacter
| LUrlParserError_InvalidSchemeName
| LUrlParserError_NoDoubleSlash
| LUrlParserError_NoAtSign
| LUrlParserError_NoSlash.

#[global] Instance LUrlParserError_eq_dec : EqDecision LUrlParserError.
Proof. solve_decision. Defined.

(** Modelled from the spec: the data members of [ParseURL], declared in the
    same missing header; the member names are those [parseURL] and
    [getPort] assign and read. *)
Record ParseURL : Type := {
  errorCode_ : LUrlParserError;
  scheme_ : std_string;
  userName_ : std_string;
  password_ : std_string;
  host_ : std_string;
  port_ : std_string;
  path_ : std_string;
  query_ : std_string;
  url_parameters_ : gmap std_string std_string;
  fragment_ : std_string
}.

(** Modelled from the spec: the constructor [ParseURL(LUrlParserError)] of
    the missing header.  It records the classification and leaves every
    string and the parameter map default-constructed, that is empty. *)
Definition ParseURL_error (e : LUrlParserError) : ParseURL :=
  {| errorCode_ := e; scheme_ := []; userName_ := []; password_ := [];
     host_ := []; port_ := []; path_ := []; query_ := [];
     url_parameters_ := ∅; fragment_ := [] |}.

(** Modelled from the spec: [isValid()], an inline member of the missing
    header; it is [errorCode == Ok]. *)
Definition isValid (this : ParseURL) : bool :=
  bool_decide (errorCode_ this = LUrlParserError_Ok).

(** ** [ParseURL::getPort] (lines 72-82)

    The [bool] result and the integer stored through [outPort] are one
    [option]: [Some port] for [true], [None] for [false]. *)
Definition getPort (this : ParseURL) : outcome (option Z) :=
  if negb (isValid this) then Returned None
  else
    let port := atoi (c_str (port_ this)) in
    if (port <=? 0)%Z || (65535 <? port)%Z then Returned None
    else Returned (Some port).

(** ** [ParseURL::parseURL] (lines 85-287) *)

(** Line 99: the end of the scheme, the first [':'] or else the character
    before the first ['/']. *)
Definition scheme_end (currentString : list ascii) : outcome char_ptr :=
  match strchr currentString ":" with
  | nullptr => ptr_pred (strchr currentString "/")
  | p => Returned p
  end.

(** Lines 134-146: is there an ['@'] before the first ['/']? *)
Fixpoint has_user_name (localString : list ascii) : bool :=
  match localString with
  | [] => false
  | c :: rest =>
      if (c =? "@")%char then true
      else if (c =? "/")%char then false
      else has_user_name rest
  end.

(** Lines 188-199: the end of the host. *)
Fixpoint host_end (bHasBracket : bool) (localString : list ascii) : list ascii :=
  match localString with
  | [] => []
  | c :: rest =>
      if bHasBracket && (c =? "]")%char then rest
      else if negb bHasBracket && ((c =? ":")%char || (c =? "/")%char)
      then localString
      else host_end bHasBracket rest
  end.

(** Lines 254-264: the loop over the pairs of the query.  [key] and
    [value] are declared outside the loop and live across its rounds.
    Every round that goes on consumes part of the stream, so
    [query.length() + 1] rounds are enough (lemma [query_loop_fuel]). *)
Fixpoint query_loop (fuel : nat) (ss : sstream) (key_value key value : std_string)
    (url_parameters : gmap std_string std_string)
  : outcome (gmap std_string std_string) :=
  match fuel with
  | O => Returned url_parameters
  | S fuel' =>
      let (ss, key_value) := getline ss key_value "&" in
      if negb (stream_ok ss) then Returned url_parameters
      else
        let ss2 := stringstream key_value in
        let (ss2, key) := getline ss2 key "=" in
        let (ss2, value) := getline ss2 value "&" in
        decoded ← urlDecode value;
        query_loop fuel' ss key_value key value (<[key := decoded]> url_parameters)
  end.

Definition parse_query (query : std_string) : outcome (gmap std_string std_string) :=
  query_loop (S (length query)) (stringstream query) [] [] [] ∅.

(** Lines 151-181: user name and password; gives back the two strings and
    [currentString], or the error of line 177. *)
Definition read_credentials (currentString : list ascii)
  : LUrlParserError + (std_string * std_string * list ascii) :=
  let localString := scan (fun c => (c =? ":")%char || (c =? "@")%char) currentString in
  let userName := between currentString localString in
  let currentString := localString in
  let '(password, currentString) :=
    if (deref currentString =? ":")%char then
      let currentString := next currentString in
      let localString := scan (fun c => (c =? "@")%char) currentString in
      (between currentString localString, localString)
    else ([], currentString) in
  if negb (deref currentString =? "@")%char
  then inl LUrlParserError_NoAtSign
  else inr (userName, password, next currentString).

(** Lines 233-286: path, query and fragment, once the ['/'] is skipped. *)
Definition read_path (scheme userName password host port : std_string)
    (currentString : list ascii) : outcome ParseURL :=
  let localString :=
    scan (fun c => (c =? "#")%char || (c =? "?")%char) currentString in
  let path := between currentString localString in
  let currentString := localString in
  '(query, url_parameters, currentString) ←
    (if (deref currentString =? "?")%char then
       let currentString := next currentString in
       let localString := scan (fun c => (c =? "#")%char) currentString in
       let query := between currentString localString in
       url_parameters ← parse_query query;
       Returned (query, url_parameters, localString)
     else Returned ([], ∅, currentString));
  let fragment :=
    if (deref currentString =? "#")%char then
      let currentString := next currentString in
      between currentString (scan (fun _ => false) currentString)
    else [] in
  Returned {| errorCode_ := LUrlParserError_Ok; scheme_ := scheme;
              userName_ := userName; password_ := password; host_ := host;
              port_ := port; path_ := path; query_ := query;
              url_parameters_ := url_parameters; fragment_ := fragment |}.

(** Lines 183-231: host and port, then the end of the input or the path. *)
Definition read_host (scheme userName password : std_string)
    (currentString : list ascii) : outcome ParseURL :=
  let bHasBracket := (deref currentString =? "[")%char in
  let localString := host_end bHasBracket currentString in
  let host := between currentString localString in
  let currentString := localString in
  let '(port, currentString) :=
    if (deref currentString =? ":")%char then
      let currentString := next currentString in
      let localString := scan (fun c => (c =? "/")%char) currentString in
      (between currentString localString, localString)
    else ([], currentString) in
  if (deref currentString =? NUL)%char then
    Returned {| errorCode_ := LUrlParserError_Ok; scheme_ := scheme;
                userName_ := userName; password_ := password;
                host_ := host; port_ := port; path_ := []; query_ := [];
                url_parameters_ := ∅; fragment_ := [] |}
  else if negb (deref currentString =? "/")%char then
    Returned (ParseURL_error LUrlParserError_NoSlash)
  else read_path scheme userName password host port (next currentString).

(** Lines 130-181: the authority, from the character after ["//"]. *)
Definition read_authority (scheme : std_string) (currentString : list ascii)
  : outcome ParseURL :=
  let bHasUserName := has_user_name currentString in
  match (if bHasUserName then read_credentials currentString
         else inr ([], [], currentString)) with
  | inl e => Returned (ParseURL_error e)
  | inr (userName, password, currentString) =>
      read_host scheme userName password currentString
  end.

(** The whole function.  [result->errorCode_] is assigned [Ok] right
    before each [return result], so the record is built at those two
    places from the members assigned so far; every early exit returns a
    fresh [ParseURL(error)]. *)
Definition parseURL (URL : std_string) : outcome ParseURL :=
  let currentString := c_str URL in
  localString ← scheme_end currentString;
  match localString with
  | nullptr => Returned (ParseURL_error LUrlParserError_NoUrlCharacter)
  | at_index n =>
      let scheme := firstn n currentString in
      if negb (isSchemeValid scheme)
      then Returned (ParseURL_error LUrlParserError_InvalidSchemeName)
      else
        let scheme := map tolower scheme in
        let currentString := skipn (n + 1) currentString in
        if negb (deref currentString =? "/")%char
        then Returned (ParseURL_error LUrlParserError_NoDoubleSlash)
        else
          let currentString := next currentString in
          if negb (deref currentString =? "/")%char
          then Returned (ParseURL_error LUrlParserError_NoDoubleSlash)
          else read_authority scheme (next currentString)
  end.

(** * Notions of the specification *)

(** A complete scan: the text [s] is, in order, a scheme of scheme
    characters, the boundary character, ["//"], optional credentials, the
    host, an optional port, and an optional tail of path, query and
    fragment, and the members of [r] are exactly those pieces. *)
Definition credentials_of (r : ParseURL) (cred : list ascii) : Prop :=
  cred = [] ∧ userName_ r = [] ∧ password_ r = []
  ∨ cred = userName_ r ++ ["@"] ∧ password_ r = []
  ∨ cred = userName_ r ++ ":" :: password_ r ++ ["@"].

Definition port_of (r : ParseURL) (port_part : list ascii) : Prop :=
  port_part = [] ∧ port_ r = [] ∨ port_part = ":" :: port_ r.

Definition query_of (r : ParseURL) (query_part : list ascii) : Prop :=
  query_part = [] ∧ query_ r = [] ∧ url_parameters_ r = ∅
  ∨ query_part = "?" :: query_ r
    ∧ parse_query (query_ r) = Returned (url_parameters_ r).

Definition fragment_of (r : ParseURL) (fragment_part : list ascii) : Prop :=
  fragment_part = [] ∧ fragment_ r = [] ∨ fragment_part = "#" :: fragment_ r.

Definition tail_of (r : ParseURL) (tail : list ascii) : Prop :=
  tail = [] ∧ path_ r = [] ∧ query_ r = [] ∧ url_parameters_ r = ∅
    ∧ fragment_ r = []
  ∨ ∃ query_part fragment_part,
      tail = "/" :: path_ r ++ query_part ++ fragment_part
      ∧ query_of r query_part ∧ fragment_of r fragment_part.

Definition complete_scan (s : list ascii) (r : ParseURL) : Prop :=
  ∃ sch b cred port_part tail,
    s = sch ++ b :: "/" :: "/" :: cred ++ host_ r ++ port_part ++ tail
    ∧ isSchemeValid sch = true
    ∧ scheme_ r = map tolower sch
    ∧ credentials_of r cred ∧ port_of r port_part ∧ tail_of r tail.

(** Every structural member is empty. *)
Definition all_empty (r : ParseURL) : Prop :=
  scheme_ r = [] ∧ userName_ r = [] ∧ password_ r = [] ∧ host_ r = []
  ∧ port_ r = [] ∧ path_ r = [] ∧ query_ r = [] ∧ url_parameters_ r = ∅
  ∧ fragment_ r = [].

(** A character a scheme may hold: a letter, ['+'], ['-'] or ['.']. *)
Definition scheme_char (c : ascii) : bool :=
  isalpha c || (c =? "+")%char || (c =? "-")%char || (c =? ".")%char.

(** The scheme candidate of a text: what precedes the first [':'], or,
    in a text without [':'], what precedes the character before the first
    ['/']. *)
Definition scheme_candidate (s cand : list ascii) : Prop :=
  (¬ In ":" cand ∧ ∃ rest, s = cand ++ ":" :: rest)
  ∨ (¬ In ":" s
     ∧ ∃ b rest, s = cand ++ b :: "/" :: rest ∧ ¬ In "/" (cand ++ [b])).

(** The percent-decoder in the words of the spec: ['+'] becomes a space,
    ['%'] and two hexadecimal digits become one byte, any other character
    is copied; [None] where a ['%'] is not followed by two hexadecimal
    digits. *)
Fixpoint percent_decode (v : list ascii) : option std_string :=
  match v with
  | [] => Some []
  | c :: rest =>
      if (c =? "%")%char then
        match rest with
        | h1 :: h2 :: rest' =>
            match digit_value 16 h1, digit_value 16 h2 with
            | Some d1, Some d2 =>
                cons (char_of_int (16 * d1 + d2)) <$> percent_decode rest'
            | _, _ => None
            end
        | _ => None
        end
      else if (c =? "+")%char then cons " " <$> percent_decode rest
      else cons c <$> percent_decode rest
  end.

(** Fewer than two characters remain after some ['%'] of [v]. *)
Definition truncated_escape (v : list ascii) : Prop :=
  ∃ i, nth_error v i = Some "%" ∧ (length v <= i + 2)%nat.

(** The port the scan reads after a [':']: the text up to the next ['/']. *)
Definition port_after (r : ParseURL) (rest : list ascii) : Prop :=
  (∀ rest', rest = ":" :: rest' →
     ∃ t, rest' = port_ r ++ t ∧ ¬ In "/" (port_ r)
          ∧ (t = [] ∨ deref t = "/"))
  ∧ (deref rest ≠ ":" → port_ r = []).

(** The integer a decimal text denotes, read as [atoi] reads it: white
    space, a sign, digits; zero when there is no digit. *)
Definition decimal_value (s : list ascii) : Z := default 0%Z (strtol_value 10 s).

(** ['+'] read as a space, every other character as itself. *)
Definition plus_to_space (c : ascii) : ascii :=
  if (c =? "+")%char then " " else c.

(** Pairs joined by ['&'] into the text of a query. *)
Fixpoint join_amp (pairs : list std_string) : std_string :=
  match pairs with
  | [] => []
  | item :: rest =>
      match rest with
      | [] => item
      | _ :: _ => item ++ "&" :: join_amp rest
      end
  end.

(** The key of a pair: what precedes its first ['=']. *)
Definition key_of (item : std_string) : std_string := (extract "=" item).1.

(** Key and raw value of a pair, given what [value] held before: the pair
    is cut at its first ['=']; without ['='] the value is the one before. *)
Definition split_pair (item value : std_string) : std_string * std_string :=
  match extract "=" item with
  | (key, Some v) => (key, v)
  | (key, None) => (key, value)
  end.

(** The pairs stored one after the other, [value] carried along. *)
Fixpoint insert_pairs (pairs : list std_string) (value : std_string)
    (url_parameters : gmap std_string std_string)
  : outcome (gmap std_string std_string) :=
  match pairs with
  | [] => Returned url_parameters
  | item :: rest =>
      let (key, value) := split_pair item value in
      decoded ← urlDecode value;
      insert_pairs rest value (<[key := decoded]> url_parameters)
  end.

(** An outcome that is a return, or else one of the two exceptions of
    [urlDecode] raised over a text that holds ['?'] and ['%']. *)
Definition throws_on_percent (m : outcome ParseURL) (p : list ascii) : Prop :=
  (∃ r, m = Returned r)
  ∨ (∃ e, m = Thrown e
          ∧ (e = invalid_argument "Invalid URL encoding"
             ∨ e = invalid_argument "stoi")
          ∧ In "?" p ∧ In "%" p).

(** *** Writing a URL from its parts *)

(** A host is written plain or as a bracketed literal. *)
Inductive host_form : Type :=
| Plain (name : std_string)
| Bracketed (literal : std_string).

Record url_parts : Type := {
  part_scheme : std_string;
  part_credentials : option (std_string * option std_string);
  part_host : host_form;
  part_port : option std_string;
  part_tail : option (std_string * option std_string * option std_string)
}.

Definition credentials_text (c : option (std_string * option std_string))
  : std_string :=
  match c with
  | None => []
  | Some (user, None) => user ++ ["@"]
  | Some (user, Some password) => user ++ ":" :: password ++ ["@"]
  end.

Definition host_text (h : host_form) : std_string :=
  match h with
  | Plain name => name
  | Bracketed literal => "[" :: literal ++ ["]"]
  end.

Definition port_text (p : option std_string) : std_string :=
  match p with
  | None => []
  | Some port => ":" :: port
  end.

Definition query_text (q : option std_string) : std_string :=
  match q with
  | None => []
  | Some query => "?" :: query
  end.

Definition fragment_text (f : option std_string) : std_string :=
  match f with
  | None => []
  | Some fragment => "#" :: fragment
  end.

Definition tail_text
    (t : option (std_string * option std_string * option std_string))
  : std_string :=
  match t with
  | None => []
  | Some (path, q, f) => "/" :: path ++ query_text q ++ fragment_text f
  end.

Definition write_url (u : url_parts) : std_string :=
  part_scheme u ++ ":" :: "/" :: "/" ::
    credentials_text (part_credentials u) ++ host_text (part_host u)
    ++ port_text (part_port u) ++ tail_text (part_tail u).

(** No character of [s] is one of [cs]. *)
Definition none_of (cs : list ascii) (s : std_string) : bool :=
  forallb (λ c, negb (existsb (Ascii.eqb c) cs)) s.

(** The parts can be told apart again: each is free of the delimiters
    that would end it early, and of NUL. *)
Definition credentials_writable (u : url_parts) : bool :=
  match part_credentials u with
  | None =>
      none_of ["@"] (host_text (part_host u))
      && none_of ["@"] (port_text (part_port u))
  | Some (user, None) => none_of [":"; "@"; "/"; NUL] user
  | Some (user, Some password) =>
      none_of [":"; "@"; "/"; NUL] user && none_of ["@"; "/"; NUL] password
  end.

Definition host_writable (h : host_form) : bool :=
  match h with
  | Plain name =>
      none_of [":"; "/"; NUL] name && negb (deref name =? "[")%char
  | Bracketed literal => none_of ["]"; NUL] literal
  end.

Definition tail_writable
    (t : option (std_string * option std_string * option std_string)) : bool :=
  match t with
  | None => true
  | Some (path, q, f) =>
      none_of ["#"; "?"; NUL] path
      && none_of ["#"; NUL] (default [] q)
      && none_of [NUL] (default [] f)
  end.

Definition writable (u : url_parts) : bool :=
  isSchemeValid (part_scheme u)
  && credentials_writable u
  && host_writable (part_host u)
  && none_of ["/"; NUL] (default [] (part_port u))
  && tail_writable (part_tail u).

(** The record the parts stand for, given the parameter map. *)
Definition parsed_parts (u : url_parts)
    (url_parameters : gmap std_string std_string) : ParseURL :=
  {| errorCode_ := LUrlParserError_Ok;
     scheme_ := map tolower (part_scheme u);
     userName_ := match part_credentials u with
                  | Some (user, _) => user
                  | None => []
                  end;
     password_ := match part_credentials u with
                  | Some (_, Some password) => password
                  | _ => []
                  end;
     host_ := host_text (part_host u);
     port_ := default [] (part_port u);
     path_ := match part_tail u with
              | Some (path, _, _) => path
              | None => []
              end;
     query_ := match part_tail u with
               | Some (_, Some query, _) => query
               | _ => []
               end;
     url_parameters_ := url_parameters;
     fragment_ := match part_tail u with
                  | Some (_, _, Some fragment) => fragment
                  | _ => []
                  end |}.

(** The raw query of the parts, empty when there is none. *)
Definition part_query (u : url_parts) : std_string :=
  match part_tail u with
  | Some (_, Some query, _) => query
  | _ => []
  end.

(** No member holds the delimiter that ends it: the scheme is made of
    lower-case scheme characters, the user name has no [':'] or ['@'], the
    password no ['@'], a host that is not bracketed no [':'] or ['/'], the
    port no ['/'], the path no ['?'] or ['#'], the query no ['#']. *)
Definition fields_delimited (r : ParseURL) : Prop :=
  (∀ c, In c (scheme_ r) → scheme_char c = true ∧ isupper c = false)
  ∧ (¬ In ":" (userName_ r) ∧ ¬ In "@" (userName_ r))
  ∧ ¬ In "@" (password_ r)
  ∧ (deref (host_ r) ≠ "[" → ¬ In ":" (host_ r) ∧ ¬ In "/" (host_ r))
  ∧ ¬ In "/" (port_ r)
  ∧ (¬ In "?" (path_ r) ∧ ¬ In "#" (path_ r))
  ∧ ¬ In "#" (query_ r).

(** How the scan splits an authority into the credentials it reads and
    the rest: no credentials when every ['@'] of the authority comes after
    a ['/']; otherwise a user name free of [':'], ['@'] and ['/'] and the
    ['@'], or such a user name, [':'], a password free of ['@'] and ['/']
    and the ['@']. *)
Definition credentials_split (cred rest : list ascii) : Prop :=
  (cred = [] ∧ ∀ u t, rest = u ++ "@" :: t → In "/" u)
  ∨ (∃ user, cred = user ++ ["@"]
             ∧ ¬ In ":" user ∧ ¬ In "@" user ∧ ¬ In "/" user)
  ∨ (∃ user password,
       cred = user ++ ":" :: password ++ ["@"]
       ∧ ¬ In ":" user ∧ ¬ In "@" user ∧ ¬ In "/" user
       ∧ ¬ In "@" password ∧ ¬ In "/" password).

(** * Properties *)

(** ** Characters and pointers *)

Lemma char_eqb_true (a b : ascii) : (a =? b)%char = true ↔ a = b.
Proof. apply Ascii.eqb_eq. Qed.

Lemma char_eqb_false (a b : ascii) : (a =? b)%char = false ↔ a ≠ b.
Proof. apply Ascii.eqb_neq. Qed.

Ltac char_cases :=
  repeat match goal with
  | H : (_ =? _)%char = true |- _ => apply char_eqb_true in H
  | H : (_ =? _)%char = false |- _ => apply char_eqb_false in H
  | H : negb _ = true |- _ => apply negb_true_iff in H
  | H : negb _ = false |- _ => apply negb_false_iff in H
  | H : _ || _ = false |- _ => apply orb_false_iff in H; destruct H
  | H : _ && _ = true |- _ => apply andb_true_iff in H; destruct H
  end.

(** A pointer that reads a character other than NUL points at a cell. *)
Lemma deref_cons (p : list ascii) (c : ascii) :
  deref p = c → c ≠ NUL → p = c :: next p.
Proof. destruct p; simpl; intros; congruence. Qed.

Lemma between_app (w q : list ascii) : between (w ++ q) q = w.
Proof.
  unfold between. rewrite length_app.
  replace (length w + length q - length q)%nat with (length w) by lia.
  apply take_app_length.
Qed.

Lemma scan_suffix (stop : ascii → bool) (p : list ascii) :
  ∃ w, p = w ++ scan stop p ∧ Forall (λ c, stop c = false) w.
Proof.
  induction p as [|c p [w [IH Hw]]]; simpl.
  - exists []. auto.
  - destruct (stop c) eqn:Hc.
    + exists []. auto.
    + exists (c :: w). simpl. split; [congruence | auto].
Qed.

Lemma scan_stops (stop : ascii → bool) (p : list ascii) :
  scan stop p = [] ∨ stop (deref (scan stop p)) = true.
Proof.
  induction p as [|c p IH]; simpl; auto.
  destruct (stop c) eqn:Hc; auto.
Qed.

Lemma between_scan (stop : ascii → bool) (p : list ascii) :
  p = between p (scan stop p) ++ scan stop p.
Proof.
  destruct (scan_suffix stop p) as [w [Hp _]].
  rewrite Hp at 2. rewrite between_app. exact Hp.
Qed.

Lemma host_end_suffix (b : bool) (p : list ascii) :
  ∃ w, p = w ++ host_end b p.
Proof.
  induction p as [|c p [w IH]]; simpl.
  - exists []. auto.
  - destruct (b && (c =? "]")%char).
    + exists [c]. reflexivity.
    + destruct (negb b && ((c =? ":")%char || (c =? "/")%char)).
      * exists []. reflexivity.
      * exists (c :: w). simpl. congruence.
Qed.

Lemma between_host_end (b : bool) (p : list ascii) :
  p = between p (host_end b p) ++ host_end b p.
Proof.
  destruct (host_end_suffix b p) as [w Hp].
  rewrite Hp at 2. rewrite between_app. exact Hp.
Qed.

(** ** Credentials (lines 130-181) *)

Lemma has_user_name_In (p : list ascii) :
  has_user_name p = true → In "@" p.
Proof.
  induction p as [|c p IH]; simpl; [discriminate|].
  destruct (c =? "@")%char eqn:Hat; [char_cases; auto|].
  destruct (c =? "/")%char; [discriminate | auto].
Qed.

Lemma scan_to_at (p : list ascii) :
  In "@" p → deref (scan (λ c, (c =? "@")%char) p) = "@".
Proof.
  induction p as [|c p IH]; simpl; [tauto|].
  destruct (c =? "@")%char eqn:Hat; [char_cases; auto|].
  char_cases. intros [H|H]; [congruence | auto].
Qed.

Lemma scan_to_colon_or_at (p : list ascii) :
  In "@" p →
  let q := scan (λ c, (c =? ":")%char || (c =? "@")%char) p in
  deref q = "@" ∨ (deref q = ":" ∧ In "@" (next q)).
Proof.
  induction p as [|c p IH]; simpl; [tauto|].
  destruct (c =? ":")%char eqn:Hcolon; simpl.
  - char_cases. subst c. intros [H|H]; [discriminate | auto].
  - destruct (c =? "@")%char eqn:Hat; simpl; [char_cases; auto|].
    char_cases. intros [H|H]; [congruence | auto].
Qed.

Lemma read_credentials_at (p : list ascii) :
  has_user_name p = true → ∃ x, read_credentials p = inr x.
Proof.
  intros Hp. apply has_user_name_In, scan_to_colon_or_at in Hp.
  unfold read_credentials.
  destruct Hp as [Hat | [Hcolon Hin]].
  - rewrite Hat. simpl. rewrite Hat. simpl. eauto.
  - rewrite Hcolon. simpl. rewrite (scan_to_at _ Hin). simpl. eauto.
Qed.

(** ** Shape of the returned record *)

Lemma read_path_Ok scheme userName password host port p r :
  read_path scheme userName password host port p = Returned r →
  errorCode_ r = LUrlParserError_Ok.
Proof.
  unfold read_path. intros H.
  destruct (deref _ =? "?")%char in H; simpl in H.
  - destruct (parse_query _) in H; simpl in H; try discriminate.
    injection H as <-. reflexivity.
  - injection H as <-. reflexivity.
Qed.

Lemma read_host_shape scheme u pw p r :
  read_host scheme u pw p = Returned r →
  errorCode_ r = LUrlParserError_Ok
  ∨ r = ParseURL_error LUrlParserError_NoSlash.
Proof.
  unfold read_host. intros H.
  destruct (deref (host_end _ p) =? ":")%char in H;
    destruct (deref _ =? NUL)%char in H;
    try (injection H as <-; auto; fail);
    destruct (negb _) in H;
    try (injection H as <-; auto; fail);
    left; eapply read_path_Ok; eauto.
Qed.

Lemma read_authority_shape scheme p r :
  read_authority scheme p = Returned r →
  errorCode_ r = LUrlParserError_Ok
  ∨ r = ParseURL_error LUrlParserError_NoSlash.
Proof.
  unfold read_authority. intros H.
  destruct (has_user_name p) eqn:Hu.
  - destruct (read_credentials_at p Hu) as [[[u pw] q] Hc].
    rewrite Hc in H. eapply read_host_shape; eauto.
  - eapply read_host_shape; eauto.
Qed.

Lemma scheme_end_not_null (s : list ascii) :
  scheme_end s ≠ Returned nullptr.
Proof.
  unfold scheme_end.
  destruct (strchr s ":") eqn:Hc; [|discriminate].
  destruct (strchr s "/") as [|[|i]]; discriminate.
Qed.

Lemma parseURL_shape (URL : std_string) (r : ParseURL) :
  parseURL URL = Returned r →
  errorCode_ r = LUrlParserError_Ok
  ∨ r = ParseURL_error LUrlParserError_InvalidSchemeName
  ∨ r = ParseURL_error LUrlParserError_NoDoubleSlash
  ∨ r = ParseURL_error LUrlParserError_NoSlash.
Proof.
  unfold parseURL. intros H.
  destruct (scheme_end (c_str URL)) as [[|n]| |] eqn:He; simpl in H;
    try discriminate.
  - exfalso. eapply scheme_end_not_null; eauto.
  - destruct (negb (isSchemeValid _)) in H; [injection H as <-; auto|].
    destruct (negb (deref _ =? "/")%char) in H; [injection H as <-; auto|].
    destruct (negb (deref _ =? "/")%char) in H; [injection H as <-; auto|].
    apply read_authority_shape in H. tauto.
Qed.

(** ** A returned [Ok] record spells the input *)

Lemma scan_to_end (p : list ascii) : scan (λ _, false) p = [].
Proof. induction p; simpl; auto. Qed.

Lemma between_nil (p : list ascii) : between p [] = p.
Proof. unfold between. simpl. rewrite Nat.sub_0_r. apply firstn_all. Qed.

(** Names the text a scan walked over and the pointer it ended on. *)
Ltac name_scan stop p w q :=
  let H := fresh "Hcut" in
  let Hs := fresh "Hstop" in
  pose proof (between_scan stop p) as H;
  pose proof (scan_stops stop p) as Hs;
  remember (between p (scan stop p)) as w eqn:Ew; clear Ew;
  remember (scan stop p) as q eqn:Eq; clear Eq.

Ltac at_char H := char_cases; apply deref_cons in H; [|discriminate].

Lemma read_credentials_spells p u pw q :
  read_credentials p = inr (u, pw, q) →
  p = u ++ "@" :: q ∧ pw = [] ∨ p = u ++ ":" :: pw ++ "@" :: q.
Proof.
  unfold read_credentials.
  name_scan (λ c, (c =? ":")%char || (c =? "@")%char) p w1 q1.
  destruct (deref q1 =? ":")%char eqn:Hcolon.
  - name_scan (λ c, (c =? "@")%char) (next q1) w2 q2.
    destruct (negb (deref q2 =? "@")%char) eqn:Hat; [discriminate|].
    intros [= <- <- <-]. right.
    at_char Hcolon. at_char Hat. congruence.
  - destruct (negb (deref q1 =? "@")%char) eqn:Hat; [discriminate|].
    intros [= <- <- <-]. left.
    at_char Hat. split; congruence.
Qed.

Lemma read_path_spells scheme userName password host port p r :
  read_path scheme userName password host port p = Returned r →
  scheme_ r = scheme ∧ userName_ r = userName ∧ password_ r = password
  ∧ host_ r = host ∧ port_ r = port
  ∧ ∃ query_part fragment_part,
      p = path_ r ++ query_part ++ fragment_part
      ∧ query_of r query_part ∧ fragment_of r fragment_part.
Proof.
  unfold read_path.
  name_scan (λ c, (c =? "#")%char || (c =? "?")%char) p w1 q1.
  destruct (deref q1 =? "?")%char eqn:Hq; simpl.
  - name_scan (λ c, (c =? "#")%char) (next q1) w2 q2.
    destruct (parse_query w2) as [m| |] eqn:Hm; simpl; try discriminate.
    at_char Hq.
    destruct (deref q2 =? "#")%char eqn:Hf;
      intros [= <-]; simpl; repeat split; auto.
    + at_char Hf. exists ("?" :: w2), ("#" :: next q2).
      split; [simpl; congruence|]. split; right; auto.
      rewrite scan_to_end, between_nil. reflexivity.
    + exists ("?" :: w2), [].
      split; [|split; [right|left]; auto].
      destruct Hstop0 as [-> | Hstop0]; [simpl; congruence | congruence].
  - destruct (deref q1 =? "#")%char eqn:Hf;
      intros [= <-]; simpl; repeat split; auto.
    + at_char Hf. exists [], ("#" :: next q1).
      split; [simpl; congruence|]. split; [left | right]; auto.
      rewrite scan_to_end, between_nil. reflexivity.
    + exists [], [].
      split; [|split; left; auto].
      destruct Hstop as [-> | Hstop]; [simpl; congruence|].
      rewrite Hq, Hf in Hstop. discriminate.
Qed.

Lemma c_str_no_NUL (s : std_string) : ¬ In NUL (c_str s).
Proof.
  induction s as [|c s IH]; simpl; [tauto|].
  destruct (c =? NUL)%char eqn:Hc; simpl; [tauto|].
  char_cases. intros [H|H]; auto.
Qed.

Lemma deref_NUL (p : list ascii) : ¬ In NUL p → deref p = NUL → p = [].
Proof. destruct p; simpl; [auto | intros H ->; tauto]. Qed.

Lemma no_NUL_suffix (w q : list ascii) : ¬ In NUL (w ++ q) → ¬ In NUL q.
Proof. rewrite in_app_iff. tauto. Qed.

Lemma no_NUL_skipn (n : nat) (p : list ascii) : ¬ In NUL p → ¬ In NUL (skipn n p).
Proof.
  intros H. rewrite <- (firstn_skipn n p) in H. eapply no_NUL_suffix; eauto.
Qed.

Lemma no_NUL_next (p : list ascii) : ¬ In NUL p → ¬ In NUL (next p).
Proof. destruct p; simpl; tauto. Qed.

Lemma read_host_spells scheme u pw p r :
  ¬ In NUL p →
  read_host scheme u pw p = Returned r →
  errorCode_ r = LUrlParserError_Ok →
  scheme_ r = scheme ∧ userName_ r = u ∧ password_ r = pw
  ∧ ∃ port_part tail,
      p = host_ r ++ port_part ++ tail ∧ port_of r port_part ∧ tail_of r tail.
Proof.
  intros Hnul. unfold read_host.
  pose proof (between_host_end (deref p =? "[")%char p) as Hcut.
  remember (between p (host_end (deref p =? "[")%char p)) as h eqn:Eh; clear Eh.
  remember (host_end (deref p =? "[")%char p) as q eqn:Eq; clear Eq.
  assert (Hq : ¬ In NUL q) by (rewrite Hcut in Hnul; eapply no_NUL_suffix; eauto).
  destruct (deref q =? ":")%char eqn:Hcolon.
  - name_scan (λ c, (c =? "/")%char) (next q) w2 q2.
    at_char Hcolon.
    assert (Hq2 : ¬ In NUL q2).
    { apply no_NUL_next in Hq. rewrite Hcut0 in Hq. eapply no_NUL_suffix; eauto. }
    destruct (deref q2 =? NUL)%char eqn:Hend.
    + intros [= <-] _. simpl. repeat split; auto.
      char_cases. apply deref_NUL in Hend; auto.
      exists (":" :: w2), []. split; [|split; [right|left]; auto].
      rewrite app_nil_r. subst q2. rewrite app_nil_r in Hcut0. congruence.
    + destruct (negb (deref q2 =? "/")%char) eqn:Hslash;
        [intros [= <-]; discriminate|].
      intros Hr _. apply read_path_spells in Hr.
      destruct Hr as (-> & -> & -> & Hh & Hport & qp & fp & Hn & Hqp & Hfp).
      repeat split; auto. at_char Hslash.
      exists (":" :: w2), ("/" :: path_ r ++ qp ++ fp).
      split; [|split].
      * rewrite Hh. simpl. congruence.
      * right. congruence.
      * right. eauto.
  - destruct (deref q =? NUL)%char eqn:Hend.
    + intros [= <-] _. simpl. repeat split; auto.
      char_cases. apply deref_NUL in Hend; auto.
      exists [], []. split; [|split; left; auto].
      simpl. congruence.
    + destruct (negb (deref q =? "/")%char) eqn:Hslash;
        [intros [= <-]; discriminate|].
      intros Hr _. apply read_path_spells in Hr.
      destruct Hr as (-> & -> & -> & Hh & Hport & qp & fp & Hn & Hqp & Hfp).
      repeat split; auto. at_char Hslash.
      exists [], ("/" :: path_ r ++ qp ++ fp).
      split; [|split].
      * rewrite Hh. simpl. congruence.
      * left. auto.
      * right. eauto.
Qed.

Lemma read_authority_spells scheme p r :
  ¬ In NUL p →
  read_authority scheme p = Returned r →
  errorCode_ r = LUrlParserError_Ok →
  scheme_ r = scheme
  ∧ ∃ cred port_part tail,
      p = cred ++ host_ r ++ port_part ++ tail
      ∧ credentials_of r cred ∧ port_of r port_part ∧ tail_of r tail.
Proof.
  intros Hnul. unfold read_authority.
  destruct (has_user_name p) eqn:Hu.
  - destruct (read_credentials_at p Hu) as [[[u pw] q] Hc]. rewrite Hc.
    apply read_credentials_spells in Hc.
    assert (Hq : ¬ In NUL q).
    { destruct Hc as [[-> _] | ->]; revert Hnul;
        rewrite ?in_app_iff; simpl; rewrite ?in_app_iff; simpl; tauto. }
    intros Hr Hok.
    destruct (read_host_spells _ _ _ _ _ Hq Hr Hok)
      as (Hs & Hu' & Hpw & pp & tl & Hcut & Hpp & Htl).
    split; [auto|]. unfold credentials_of. rewrite Hu', Hpw.
    destruct Hc as [[-> ->] | ->].
    + exists (u ++ ["@"]), pp, tl. rewrite <- app_assoc. simpl.
      split; [congruence | auto].
    + exists (u ++ ":" :: pw ++ ["@"]), pp, tl.
      rewrite <- app_assoc. simpl. rewrite <- app_assoc. simpl.
      split; [congruence | auto 6].
  - intros Hr Hok.
    destruct (read_host_spells _ _ _ _ _ Hnul Hr Hok)
      as (Hs & Hu' & Hpw & pp & tl & Hcut & Hpp & Htl).
    split; [auto|]. exists [], pp, tl. unfold credentials_of. auto 6.
Qed.

(** ** The scheme boundary (line 99) *)

Lemma find_char_Some (c : ascii) (s : list ascii) (i : nat) :
  find_char c s = Some i →
  ∃ rest, s = firstn i s ++ c :: rest ∧ skipn (i + 1) s = rest
          ∧ ¬ In c (firstn i s).
Proof.
  revert i. induction s as [|x s IH]; intros i; simpl; [discriminate|].
  destruct (x =? c)%char eqn:Hx.
  - intros [= <-]. char_cases. subst x. exists s. simpl. auto.
  - destruct (find_char c s) as [j|] eqn:Hj; simpl; [|discriminate].
    intros [= <-]. destruct (IH j eq_refl) as (rest & Hs & Hk & Hn).
    exists rest. simpl. char_cases. split; [congruence|]. split; [auto|].
    intros [H|H]; auto.
Qed.

Lemma find_char_None (c : ascii) (s : list ascii) :
  find_char c s = None ↔ ¬ In c s.
Proof.
  induction s as [|x s IH]; simpl; [tauto|].
  destruct (x =? c)%char eqn:Hx; char_cases.
  - split; [discriminate | tauto].
  - destruct (find_char c s); simpl.
    + split; [discriminate|]. intros H. exfalso. apply H. right.
      destruct (In_dec ascii_dec c s) as [Hin|Hin]; [auto|].
      apply IH in Hin. discriminate.
    + split; [|auto]. intros _ [H|H]; [auto|]. apply IH in H; auto.
Qed.

Lemma find_char_lt (c : ascii) (s : list ascii) (i : nat) :
  find_char c s = Some i → (i < length s)%nat.
Proof.
  revert i. induction s as [|x s IH]; intros i; simpl; [discriminate|].
  destruct (x =? c)%char; [intros [= <-]; lia|].
  destruct (find_char c s) as [j|]; simpl; [|discriminate].
  intros [= <-]. specialize (IH j eq_refl). lia.
Qed.

Lemma cut_at (n : nat) (s : list ascii) :
  (n < length s)%nat → ∃ b, s = firstn n s ++ b :: skipn (n + 1) s.
Proof.
  revert s. induction n as [|n IH]; intros [|x s]; simpl; try lia.
  - eauto.
  - intros H. destruct (IH s) as [b Hb]; [lia|].
    exists b. congruence.
Qed.

Lemma scheme_end_index (s : list ascii) (n : nat) :
  scheme_end s = Returned (at_index n) → (n < length s)%nat.
Proof.
  unfold scheme_end, strchr.
  destruct (find_char ":" s) as [i|] eqn:Hc.
  - intros [= <-]. eapply find_char_lt; eauto.
  - destruct (find_char "/" s) as [[|i]|] eqn:Hs; simpl; try discriminate.
    intros [= <-]. apply find_char_lt in Hs. lia.
Qed.

(** What [parseURL] does once line 99 has produced the index [n]. *)
Lemma parseURL_from_scheme_end (URL : std_string) (n : nat) :
  scheme_end (c_str URL) = Returned (at_index n) →
  parseURL URL =
    if negb (isSchemeValid (firstn n (c_str URL)))
    then Returned (ParseURL_error LUrlParserError_InvalidSchemeName)
    else
      let currentString := skipn (n + 1) (c_str URL) in
      if negb (deref currentString =? "/")%char
      then Returned (ParseURL_error LUrlParserError_NoDoubleSlash)
      else if negb (deref (next currentString) =? "/")%char
      then Returned (ParseURL_error LUrlParserError_NoDoubleSlash)
      else read_authority (map tolower (firstn n (c_str URL)))
             (next (next currentString)).
Proof. unfold parseURL. intros ->. reflexivity. Qed.

Lemma parseURL_spells (URL : std_string) (r : ParseURL) :
  parseURL URL = Returned r →
  errorCode_ r = LUrlParserError_Ok →
  complete_scan (c_str URL) r.
Proof.
  intros Hr Hok.
  assert (Hn : ∃ n, scheme_end (c_str URL) = Returned (at_index n)).
  { unfold parseURL in Hr.
    destruct (scheme_end (c_str URL)) as [[|n]| |] eqn:He; simpl in Hr;
      try discriminate; eauto.
    exfalso. eapply scheme_end_not_null; eauto. }
  destruct Hn as [n Hn]. rewrite (parseURL_from_scheme_end _ _ Hn) in Hr.
  destruct (cut_at n (c_str URL) (scheme_end_index _ _ Hn)) as [b Hcut].
  pose proof (no_NUL_skipn (n + 1) _ (c_str_no_NUL URL)) as Hnul.
  remember (skipn (n + 1) (c_str URL)) as p eqn:Ep; clear Ep.
  remember (firstn n (c_str URL)) as sch eqn:Esch; clear Esch.
  destruct (negb (isSchemeValid sch)) eqn:Hv;
    [injection Hr as <-; discriminate|].
  cbv zeta in Hr.
  destruct (negb (deref p =? "/")%char) eqn:H1;
    [injection Hr as <-; discriminate|].
  destruct (negb (deref (next p) =? "/")%char) eqn:H2;
    [injection Hr as <-; discriminate|].
  at_char H1. at_char H2.
  apply read_authority_spells in Hr; auto using no_NUL_next.
  destruct Hr as (Hs & cred & pp & tl & Hp & Hc & Hpp & Htl).
  exists sch, b, cred, pp, tl. repeat split; auto.
  rewrite Hcut, H1, H2, Hp. reflexivity.
Qed.

(** C1.  Whatever record [parseURL] returns, either its error code is not
    [Ok] and then every structural member (scheme, user name, password,
    host, port, path, query, query parameters, fragment) is empty, or the
    code is [Ok] and then the scan was complete: the members, put back in
    order with their delimiters, spell the whole input.  So a scan that
    fails anywhere never yields an [Ok] record, and no record of a failure
    carries parsed text. *)
Theorem parseURL_error_iff_nothing_parsed (URL : std_string) (r : ParseURL) :
  parseURL URL = Returned r →
  (errorCode_ r ≠ LUrlParserError_Ok → all_empty r)
  ∧ (errorCode_ r = LUrlParserError_Ok → complete_scan (c_str URL) r).
Proof.
  intros Hr. split.
  - intros Hne.
    destruct (parseURL_shape _ _ Hr) as [H | [-> | [-> | ->]]];
      [contradiction | | |]; repeat split.
  - apply parseURL_spells. exact Hr.
Qed.

Lemma parseURL_error_iff_nothing_parsed_witness :
  ∃ r, parseURL #"http://[::1]x/index.html" = Returned r
       ∧ errorCode_ r = LUrlParserError_NoSlash ∧ all_empty r.
Proof.
  exists (ParseURL_error LUrlParserError_NoSlash).
  assert (H : parseURL #"http://[::1]x/index.html"
              = Returned (ParseURL_error LUrlParserError_NoSlash))
    by (vm_compute; reflexivity).
  split; [vm_compute; reflexivity|]. split; [reflexivity|].
  apply (parseURL_error_iff_nothing_parsed _ _ H). discriminate.
Defined.

(** C10.  [parseURL] never returns the error code [NoAtSign]: the
    credentials are read only after the look-ahead met an ['@'], and the
    two scans for the user name and the password then stop on it. *)
Theorem parseURL_never_NoAtSign (URL : std_string) (r : ParseURL) :
  parseURL URL = Returned r → errorCode_ r ≠ LUrlParserError_NoAtSign.
Proof.
  intros Hr.
  destruct (parseURL_shape _ _ Hr) as [H | [-> | [-> | ->]]];
    [rewrite H|..]; discriminate.
Qed.

Lemma parseURL_never_NoAtSign_witness :
  ∃ r, parseURL #"ftp://anonymous:guest@[::1]:21/pub" = Returned r
       ∧ userName_ r = #"anonymous" ∧ password_ r = #"guest"
       ∧ errorCode_ r ≠ LUrlParserError_NoAtSign.
Proof.
  eexists. split; [vm_compute; reflexivity|].
  split; [reflexivity|]. split; [reflexivity|].
  apply (parseURL_never_NoAtSign #"ftp://anonymous:guest@[::1]:21/pub").
  vm_compute. reflexivity.
Defined.

Lemma find_char_app (c : ascii) (w rest : list ascii) :
  ¬ In c w → find_char c (w ++ c :: rest) = Some (length w).
Proof.
  induction w as [|x w IH]; simpl; intros Hn.
  - rewrite Ascii.eqb_refl. reflexivity.
  - destruct (x =? c)%char eqn:Hx; char_cases; [tauto|].
    rewrite IH by tauto. reflexivity.
Qed.

Lemma scheme_candidate_end (s cand : list ascii) :
  scheme_candidate s cand →
  scheme_end s = Returned (at_index (length cand))
  ∧ firstn (length cand) s = cand.
Proof.
  unfold scheme_end, strchr.
  intros [[Hn [rest ->]] | [Hn (b & rest & -> & Hs)]].
  - rewrite find_char_app by auto. split; [reflexivity|].
    apply take_app_length.
  - apply find_char_None in Hn. rewrite Hn. simpl.
    rewrite (app_assoc cand [b] ("/" :: rest)) at 1 2.
    rewrite find_char_app by auto. rewrite length_app. simpl.
    replace (length cand + 1)%nat with (S (length cand)) by lia.
    split; [reflexivity|]. rewrite <- app_assoc. apply take_app_length.
Qed.

Lemma scheme_end_candidate (s : list ascii) (n : nat) :
  scheme_end s = Returned (at_index n) →
  scheme_candidate s (firstn n s).
Proof.
  unfold scheme_end, strchr.
  destruct (find_char ":" s) as [i|] eqn:Hc.
  - intros [= <-]. destruct (find_char_Some _ _ _ Hc) as (rest & Hs & _ & Hn).
    left. eauto.
  - destruct (find_char "/" s) as [[|i]|] eqn:Hs; simpl; try discriminate.
    intros [= <-]. right. split; [apply find_char_None; auto|].
    destruct (find_char_Some _ _ _ Hs) as (rest & Hcut & _ & Hn).
    destruct (cut_at i s) as [b Hb]; [apply find_char_lt in Hs; lia|].
    assert (Hfirst : firstn (S i) s = firstn i s ++ [b]).
    { rewrite Hb at 1. replace (S i) with (length (firstn i s) + 1)%nat.
      - rewrite firstn_app_2. reflexivity.
      - rewrite length_firstn. apply find_char_lt in Hs. lia. }
    exists b, rest. rewrite <- Hfirst. split; [|auto].
    rewrite Hcut at 1. rewrite Hfirst, <- app_assoc. reflexivity.
Qed.

(** ** The scheme (lines 40-46 and 107-114) *)

Lemma isSchemeValid_cons (c : ascii) (rest : std_string) :
  isSchemeValid (c :: rest) = scheme_char c && isSchemeValid rest.
Proof.
  unfold scheme_char. simpl.
  destruct (isalpha c), (c =? "+")%char, (c =? "-")%char, (c =? ".")%char;
    reflexivity.
Qed.

Lemma isSchemeValid_forall (schemeName : std_string) :
  isSchemeValid schemeName = true ↔ ∀ c, In c schemeName → scheme_char c = true.
Proof.
  induction schemeName as [|x s IH]; [simpl; split; [tauto | auto]|].
  rewrite isSchemeValid_cons. simpl In.
  - destruct (scheme_char x) eqn:Hx; simpl.
    + rewrite IH. split; [intros H c [<-|Hc]; auto | auto].
    + split; [discriminate|]. intros H. rewrite <- Hx. auto.
Qed.

Lemma isSchemeValid_exists (schemeName : std_string) :
  isSchemeValid schemeName = false ↔ ∃ c, In c schemeName ∧ scheme_char c = false.
Proof.
  induction schemeName as [|x s IH];
    [simpl; split; [discriminate | intros [c [[] _]]]|].
  rewrite isSchemeValid_cons. simpl In.
  - destruct (scheme_char x) eqn:Hx; simpl.
    + rewrite IH. split.
      * intros [c [Hc Hf]]. eauto.
      * intros [c [[<-|Hc] Hf]]; [congruence | eauto].
    + split; [eauto | auto].
Qed.

Lemma tolower_not_upper (c : ascii) : isupper (tolower c) = false.
Proof.
  unfold tolower. destruct (isupper c) eqn:Hu; [|exact Hu].
  unfold isupper, code in *. rewrite nat_ascii_embedding.
  - apply andb_false_iff. right. apply Nat.leb_gt.
    apply andb_true_iff in Hu. destruct Hu as [Hu _].
    apply Nat.leb_le in Hu. lia.
  - apply andb_true_iff in Hu. destruct Hu as [_ Hu].
    apply Nat.leb_le in Hu. lia.
Qed.

(** C7.  Let the scheme candidate be the text before the boundary.  If it
    holds a character that is not a letter, ['+'], ['-'] or ['.'] (a digit,
    ['_'], ...), [parseURL] returns the error [InvalidSchemeName].
    Otherwise it does not, and a successful parse stores the candidate
    lower-cased, whatever the case of the input: no upper-case letter is
    left in the stored scheme. *)
Theorem parseURL_scheme_check (URL : std_string) (cand : list ascii) :
  scheme_candidate (c_str URL) cand →
  ((∃ c, In c cand ∧ scheme_char c = false) →
     parseURL URL = Returned (ParseURL_error LUrlParserError_InvalidSchemeName))
  ∧ ((∀ c, In c cand → scheme_char c = true) →
     ∀ r, parseURL URL = Returned r →
       errorCode_ r ≠ LUrlParserError_InvalidSchemeName
       ∧ (errorCode_ r = LUrlParserError_Ok →
          scheme_ r = map tolower cand
          ∧ ∀ c, In c (scheme_ r) → isupper c = false)).
Proof.
  intros Hcand. apply scheme_candidate_end in Hcand.
  destruct Hcand as [Hend Hfirst].
  rewrite (parseURL_from_scheme_end _ _ Hend), Hfirst. split.
  - intros Hbad. apply isSchemeValid_exists in Hbad. rewrite Hbad. reflexivity.
  - intros Hgood r. apply isSchemeValid_forall in Hgood. rewrite Hgood.
    cbv zeta. simpl negb. cbv iota.
    intros Hr.
    assert (Hshape : errorCode_ r = LUrlParserError_Ok
                     ∨ r = ParseURL_error LUrlParserError_NoDoubleSlash
                     ∨ r = ParseURL_error LUrlParserError_NoSlash).
    { destruct (negb (deref _ =? "/")%char) in Hr; [injection Hr as <-; auto|].
      destruct (negb (deref _ =? "/")%char) in Hr; [injection Hr as <-; auto|].
      apply read_authority_shape in Hr. tauto. }
    split.
    + destruct Hshape as [H | [-> | ->]]; [rewrite H|..]; discriminate.
    + intros Hok.
      assert (Hs : scheme_ r = map tolower cand).
      { destruct (negb (deref _ =? "/")%char) in Hr;
          [injection Hr as <-; discriminate|].
        destruct (negb (deref _ =? "/")%char) in Hr;
          [injection Hr as <-; discriminate|].
        apply read_authority_spells in Hr; [tauto | | exact Hok].
        auto using no_NUL_next, no_NUL_skipn, c_str_no_NUL. }
      split; [exact Hs|]. rewrite Hs. intros c Hc.
      apply in_map_iff in Hc. destruct Hc as [x [<- _]].
      apply tolower_not_upper.
Qed.

Lemma parseURL_scheme_check_witness :
  parseURL #"h_1://example.com"
    = Returned (ParseURL_error LUrlParserError_InvalidSchemeName)
  ∧ ∃ r, parseURL #"HtTp+X://Example.COM/" = Returned r
         ∧ scheme_ r = #"http+x".
Proof.
  split.
  - apply (parseURL_scheme_check #"h_1://example.com" #"h_1").
    + left. split; [simpl; intuition discriminate|].
      exists #"//example.com". reflexivity.
    + exists "_". split; [simpl; auto | reflexivity].
  - eexists. split; [vm_compute; reflexivity|].
    apply (parseURL_scheme_check #"HtTp+X://Example.COM/" #"HtTp+X").
    + left. split; [simpl; intuition discriminate|].
      exists #"//Example.COM/". reflexivity.
    + intros c Hc. simpl in Hc.
      repeat (destruct Hc as [<-|Hc]; [reflexivity|]). destruct Hc.
    + vm_compute. reflexivity.
    + reflexivity.
Defined.

(** ** Inputs without a boundary, and a ['/'] in front (line 99) *)

Lemma c_str_In (c : ascii) (s : std_string) : In c (c_str s) → In c s.
Proof.
  induction s as [|x s IH]; simpl; [tauto|].
  destruct (x =? NUL)%char; simpl; [tauto|]. intros [H|H]; auto.
Qed.

(** The test of line 101 never succeeds. *)
Lemma parseURL_never_NoUrlCharacter (URL : std_string) (r : ParseURL) :
  parseURL URL = Returned r → errorCode_ r ≠ LUrlParserError_NoUrlCharacter.
Proof.
  intros Hr.
  destruct (parseURL_shape _ _ Hr) as [H | [-> | [-> | ->]]];
    [rewrite H|..]; discriminate.
Qed.

(** Without [':'] and ['/'], line 99 subtracts one from a null pointer. *)
Lemma parseURL_no_boundary (URL : std_string) :
  ¬ In ":" URL → ¬ In "/" URL → parseURL URL = Undefined.
Proof.
  intros Hc Hs. unfold parseURL, scheme_end, strchr.
  assert (H1 : find_char ":" (c_str URL) = None)
    by (apply find_char_None; auto using c_str_In).
  assert (H2 : find_char "/" (c_str URL) = None)
    by (apply find_char_None; auto using c_str_In).
  rewrite H1, H2. reflexivity.
Qed.

(** Without [':'] and with a ['/'] in front, line 99 forms a pointer
    before the buffer. *)
Lemma parseURL_leading_slash (URL : std_string) (rest : list ascii) :
  c_str URL = "/" :: rest → ¬ In ":" rest → parseURL URL = Undefined.
Proof.
  intros Hs Hc. unfold parseURL, scheme_end, strchr. rewrite Hs.
  assert (H1 : find_char ":" ("/" :: rest) = None).
  { apply find_char_None. simpl. intros [H|H]; [discriminate | auto]. }
  rewrite H1. reflexivity.
Qed.

(** Without [':'] and with the first ['/'] further in, the boundary is the
    character before that ['/']: the candidate ends before it and the scan
    goes on at the ['/']. *)
Lemma parseURL_slash_fallback (URL : std_string) (cand : list ascii) (b : ascii)
    (rest : list ascii) :
  c_str URL = cand ++ b :: "/" :: rest →
  ¬ In ":" (c_str URL) → ¬ In "/" (cand ++ [b]) →
  parseURL URL =
    if negb (isSchemeValid cand)
    then Returned (ParseURL_error LUrlParserError_InvalidSchemeName)
    else if negb (deref rest =? "/")%char
    then Returned (ParseURL_error LUrlParserError_NoDoubleSlash)
    else read_authority (map tolower cand) (next rest).
Proof.
  intros Hs Hc Hn.
  assert (Hcand : scheme_candidate (c_str URL) cand) by (right; eauto).
  apply scheme_candidate_end in Hcand. destruct Hcand as [Hend Hfirst].
  rewrite (parseURL_from_scheme_end _ _ Hend), Hfirst.
  assert (Hskip : skipn (length cand + 1) (c_str URL) = "/" :: rest).
  { rewrite Hs. change (b :: "/" :: rest) with ([b] ++ "/" :: rest).
    rewrite app_assoc.
    replace (length cand + 1)%nat with (length (cand ++ [b]))
      by (rewrite length_app; reflexivity).
    apply drop_app_length. }
  rewrite Hskip. reflexivity.
Qed.

(** C2.  An input without [':'] and without ['/'] does not make [parseURL]
    return [NoUrlCharacter]: at ["example.com"] line 99 computes
    [strchr(..., '/') - 1] on a null pointer, the test of line 101 is not
    what decides, and no error record comes back. *)
Theorem parseURL_no_boundary_example :
  parseURL #"example.com" = Undefined
  ∧ parseURL #"example.com"
    ≠ Returned (ParseURL_error LUrlParserError_NoUrlCharacter).
Proof.
  assert (H : parseURL #"example.com" = Undefined).
  { apply parseURL_no_boundary; simpl; intuition discriminate. }
  rewrite H. split; [reflexivity | discriminate].
Qed.

(** C6.  At the protocol-relative input ["//example.com/index.html"], which
    has no [':'] and its first ['/'] in front, line 99 computes a pointer
    one before the buffer: there is no scheme candidate and the scan does
    not go on at the ['/']. *)
Theorem parseURL_leading_slash_example :
  scheme_end (c_str #"//example.com/index.html") = Undefined
  ∧ parseURL #"//example.com/index.html" = Undefined.
Proof.
  split; [reflexivity|].
  apply (parseURL_leading_slash _ #"/example.com/index.html");
    [reflexivity | simpl; intuition discriminate].
Qed.

(** C4.  ["://host"] parses with [errorCode == Ok] and an empty scheme:
    [isSchemeValid] accepts the empty string, although the grammar quoted
    on line 92 asks for one character or more. *)
Theorem parseURL_empty_scheme_example :
  ∃ r, parseURL #"://host" = Returned r
       ∧ errorCode_ r = LUrlParserError_Ok
       ∧ scheme_ r = [] ∧ host_ r = #"host".
Proof. eexists. split; [vm_compute; reflexivity|]. auto. Qed.

(** A pair without ['='] that comes first gets the empty value. *)
Lemma parseURL_first_pair_without_value :
  ∃ r, parseURL #"http://h/p?b&a=1" = Returned r
       ∧ url_parameters_ r !! #"b" = Some [].
Proof. eexists. split; [vm_compute; reflexivity|]. auto. Qed.

(** C3.  In ["http://h/p?a=1&b"] the pair ["b"] has no ['='], and the
    value stored for the key ["b"] is ["1"], not the empty string: the
    second [getline] of line 261 finds the stream at its end, fails, and
    leaves in [value] what the round before put there. *)
Theorem parseURL_stale_value_example :
  ∃ r, parseURL #"http://h/p?a=1&b" = Returned r
       ∧ errorCode_ r = LUrlParserError_Ok
       ∧ query_ r = #"a=1&b"
       ∧ url_parameters_ r !! #"b" = Some #"1".
Proof. eexists. split; [vm_compute; reflexivity|]. auto. Qed.

(** ** The percent-decoder (lines 48-68) *)

Lemma outcome_fmap_fmap {A B C} (f : A → B) (g : B → C) (m : outcome A) :
  g <$> (f <$> m) = (g ∘ f) <$> m.
Proof. destruct m; reflexivity. Qed.

Lemma outcome_fmap_ext {A B} (f g : A → B) (m : outcome A) :
  (∀ a, f a = g a) → f <$> m = g <$> m.
Proof. intros H. destruct m; simpl; [|reflexivity..]. unfold fmap. simpl. f_equal. apply H. Qed.

Lemma outcome_fmap_id {A} (m : outcome A) : (λ a, a) <$> m = m.
Proof. destruct m; reflexivity. Qed.

(** The index loop, started at the end of [pre] with enough rounds left,
    appends to [decoded] what [decode_tail] makes of the rest. *)
Lemma urlDecode_loop_from (fuel : nat) (pre suf decoded : list ascii) :
  (length suf <= fuel)%nat →
  urlDecode_loop fuel (pre ++ suf) (length pre) decoded
  = app decoded <$> decode_tail suf.
Proof.
  revert pre suf decoded.
  induction fuel as [|fuel IH]; intros pre suf decoded Hfuel.
  - destruct suf; simpl in Hfuel; [|lia]. simpl. rewrite app_nil_r. reflexivity.
  - simpl. rewrite length_app.
    destruct suf as [|c rest].
    + simpl. replace (length pre + 0 <=? length pre)%nat with true
        by (symmetry; apply Nat.leb_le; lia).
      rewrite app_nil_r. reflexivity.
    + replace (length pre + length (c :: rest) <=? length pre)%nat with false
        by (symmetry; apply Nat.leb_gt; simpl; lia).
      rewrite nth_middle. simpl in Hfuel. simpl decode_tail.
      destruct (c =? "%")%char eqn:Hpct.
      * destruct rest as [|a [|b rest']].
        -- replace (length pre + length [c] <=? length pre + 2)%nat with true
             by (symmetry; apply Nat.leb_le; simpl; lia).
           reflexivity.
        -- replace (length pre + length [c; a] <=? length pre + 2)%nat with true
             by (symmetry; apply Nat.leb_le; simpl; lia).
           reflexivity.
        -- replace (length pre + length (c :: a :: b :: rest') <=? length pre + 2)%nat
             with false by (symmetry; apply Nat.leb_gt; simpl; lia).
           assert (Hsub : substr (pre ++ c :: a :: b :: rest') (length pre + 1) 2
                          = [a; b]).
           { unfold substr. change (c :: a :: b :: rest') with ([c] ++ a :: b :: rest').
             rewrite app_assoc.
             replace (length pre + 1)%nat with (length (pre ++ [c]))
               by (rewrite length_app; reflexivity).
             rewrite drop_app_length. reflexivity. }
           rewrite Hsub. destruct (stoi [a; b] 16) as [v| |]; simpl; try reflexivity.
           change (c :: a :: b :: rest') with ([c; a; b] ++ rest').
           rewrite app_assoc.
           replace (length pre + 2 + 1)%nat with (length (pre ++ [c; a; b]))
             by (rewrite length_app; simpl; lia).
           rewrite IH by (simpl in Hfuel; lia).
           rewrite outcome_fmap_fmap. apply outcome_fmap_ext.
           intros x. simpl. rewrite <- app_assoc. reflexivity.
      * change (c :: rest) with ([c] ++ rest). rewrite app_assoc.
        replace (length pre + 1)%nat with (length (pre ++ [c]))
          by (rewrite length_app; reflexivity).
        destruct (c =? "+")%char eqn:Hplus;
          rewrite IH by lia;
          rewrite outcome_fmap_fmap; apply outcome_fmap_ext;
          intros x; simpl; rewrite <- app_assoc; reflexivity.
Qed.

(** [urlDecode] is [decode_tail]: the rounds it is given are enough. *)
Lemma urlDecode_decode_tail (value : std_string) :
  urlDecode value = decode_tail value.
Proof.
  unfold urlDecode.
  change (urlDecode_loop (length value) value 0 [])
    with (urlDecode_loop (length value) ([] ++ value) (length (@nil ascii)) []).
  rewrite urlDecode_loop_from by lia.
  apply outcome_fmap_id.
Qed.

Lemma hex_digit_plain (a : ascii) (d : Z) :
  digit_value 16 a = Some d →
  isspace a = false ∧ (a =? "-")%char = false ∧ (a =? "+")%char = false
  ∧ (a =? NUL)%char = false ∧ (0 <= d < 16)%Z.
Proof.
  destruct a as [[] [] [] [] [] [] [] []]; vm_compute;
    intros H; try discriminate H; injection H as <-;
    repeat split; congruence.
Qed.

(** Two hexadecimal digits convert to the byte they write. *)
Lemma stoi_two_hex_digits (a b : ascii) (da db : Z) :
  digit_value 16 a = Some da → digit_value 16 b = Some db →
  stoi [a; b] 16 = Returned (16 * da + db)%Z.
Proof.
  intros Ha Hb.
  destruct (hex_digit_plain _ _ Ha) as (Hsp & Hm & Hp & Hn & Hda).
  destruct (hex_digit_plain _ _ Hb) as (_ & _ & _ & Hnb & Hdb).
  unfold stoi. simpl c_str. rewrite Hn, Hnb.
  unfold strtol_value. simpl skip_space. rewrite Hsp.
  unfold read_sign. rewrite Hm, Hp.
  change (starts_with_digit 16 []) with false. rewrite andb_false_r.
  unfold starts_with_digit. rewrite Ha. simpl digits. rewrite Ha, Hb.
  replace (int_representable ((0 * 16 + da) * 16 + db)) with true.
  - f_equal. lia.
  - symmetry. unfold int_representable, INT_MIN, INT_MAX.
    apply andb_true_iff. split; apply Z.leb_le; lia.
Qed.

Lemma percent_decode_prefix (n : nat) (v out s : list ascii) :
  (length v <= n)%nat →
  percent_decode v = Some out →
  decode_tail (v ++ s) = app out <$> decode_tail s.
Proof.
  revert v out. induction n as [|n IH]; intros v out Hn.
  - destruct v; simpl in Hn; [|lia]. intros [= <-]. simpl.
    symmetry. apply outcome_fmap_id.
  - destruct v as [|c rest]; [intros [= <-]; symmetry; apply outcome_fmap_id|].
    simpl in Hn. cbn [percent_decode decode_tail app].
    destruct (c =? "%")%char.
    + destruct rest as [|h1 [|h2 rest']]; try discriminate.
      destruct (digit_value 16 h1) as [d1|] eqn:H1; [|discriminate].
      destruct (digit_value 16 h2) as [d2|] eqn:H2; [|discriminate].
      destruct (percent_decode rest') as [o|] eqn:Ho; [|discriminate].
      intros [= <-]. cbn [app].
      rewrite (stoi_two_hex_digits _ _ _ _ H1 H2).
      change (cons (char_of_int (16 * d1 + d2)) <$> decode_tail (rest' ++ s)
              = app (char_of_int (16 * d1 + d2) :: o) <$> decode_tail s).
      rewrite (IH rest' o) by (simpl in Hn; auto; lia).
      apply outcome_fmap_fmap.
    + destruct (c =? "+")%char;
        (destruct (percent_decode rest) as [o|] eqn:Ho; [|discriminate]);
        intros [= <-]; rewrite (IH rest o) by (auto; lia);
        apply outcome_fmap_fmap.
Qed.

(** C5, as the code has it.  On a text whose escapes are all ['%'] and two
    hexadecimal digits the decoder returns what the spec describes: ['+']
    turned into a space, each escape into its byte, the rest copied.  When
    the scan then meets a ['%'] with fewer than two characters after it,
    it throws [std::invalid_argument] ("Invalid URL encoding"); when two
    characters follow that are not the start of a hexadecimal number, it
    throws as well, from the conversion. *)
Theorem urlDecode_escapes (p out : list ascii) :
  percent_decode p = Some out →
  urlDecode p = Returned out
  ∧ (∀ t, (length t < 2)%nat →
       urlDecode (p ++ "%" :: t)
       = Thrown (invalid_argument "Invalid URL encoding"))
  ∧ (∀ a b rest, stoi [a; b] 16 = Thrown (invalid_argument "stoi") →
       urlDecode (p ++ "%" :: a :: b :: rest)
       = Thrown (invalid_argument "stoi")).
Proof.
  intros Hp. repeat split.
  - rewrite urlDecode_decode_tail.
    rewrite <- (app_nil_r p).
    rewrite (percent_decode_prefix (length p) p out []) by auto.
    simpl. rewrite app_nil_r. reflexivity.
  - intros t Ht. rewrite urlDecode_decode_tail.
    rewrite (percent_decode_prefix (length p) p out) by auto.
    destruct t as [|a [|b t]]; simpl in Ht; try lia; reflexivity.
  - intros a b rest Hab. rewrite urlDecode_decode_tail.
    rewrite (percent_decode_prefix (length p) p out) by auto.
    simpl. rewrite Hab. reflexivity.
Qed.

Lemma urlDecode_escapes_witness :
  urlDecode #"a%20b+c" = Returned #"a b c"
  ∧ urlDecode #"a%2" = Thrown (invalid_argument "Invalid URL encoding")
  ∧ urlDecode #"a%zz" = Thrown (invalid_argument "stoi").
Proof.
  split; [|split].
  - apply (urlDecode_escapes #"a%20b+c" #"a b c"). reflexivity.
  - apply (urlDecode_escapes #"a" #"a" eq_refl). simpl. lia.
  - apply (urlDecode_escapes #"a" #"a" eq_refl). reflexivity.
Defined.

(** Failure and truncation do not coincide.  The decoder fails on
    ["%zz"], where two characters do follow the ['%']; and it returns on
    ["%2%"], whose last ['%'] has nothing after it: the conversion takes
    ["2%"] for the number 2. *)
Lemma urlDecode_not_exactly_truncated :
  ((∃ e, urlDecode #"%zz" = Thrown e) ∧ ¬ truncated_escape #"%zz")
  ∧ (truncated_escape #"%2%" ∧ urlDecode #"%2%" = Returned ["002"]).
Proof.
  split; split.
  - eexists. reflexivity.
  - intros [i [Hi Hlen]]. simpl in Hlen.
    destruct i as [|[|[|i]]]; simpl in Hi; try discriminate; try lia.
    destruct i; discriminate.
  - exists 2%nat. simpl. split; [reflexivity | lia].
  - reflexivity.
Qed.

(** ** Bracketed hosts (lines 183-217) *)

Lemma host_end_bracket (w rest : list ascii) :
  ¬ In "]" w → host_end true (w ++ "]" :: rest) = rest.
Proof.
  induction w as [|c w IH]; simpl; intros Hn; [reflexivity|].
  destruct (c =? "]")%char eqn:Hc; char_cases; [tauto | auto].
Qed.

Lemma has_user_name_false (p : list ascii) :
  (∀ u t, p = u ++ "@" :: t → In "/" u) → has_user_name p = false.
Proof.
  induction p as [|c p IH]; simpl; intros H; [reflexivity|].
  destruct (c =? "@")%char eqn:Hat.
  - char_cases. subst c. destruct (H [] p eq_refl).
  - destruct (c =? "/")%char eqn:Hs; [reflexivity|]. apply IH.
    intros u t ->. destruct (H (c :: u) t eq_refl) as [Hc|Hu]; [|exact Hu].
    char_cases. congruence.
Qed.

Lemma read_host_bracket scheme u pw body rest r :
  ¬ In "]" body →
  read_host scheme u pw ("[" :: body ++ "]" :: rest) = Returned r →
  errorCode_ r = LUrlParserError_Ok →
  host_ r = "[" :: body ++ ["]"] ∧ port_after r rest.
Proof.
  intros Hbody. unfold read_host.
  change (deref ("[" :: body ++ "]" :: rest) =? "[")%char with true.
  change ("[" :: body ++ "]" :: rest) with (("[" :: body) ++ "]" :: rest).
  rewrite host_end_bracket
    by (simpl; intros [H|H]; [discriminate | auto]).
  assert (Hhost : between (("[" :: body) ++ "]" :: rest) rest
                  = "[" :: body ++ ["]"]).
  { change ("]" :: rest) with (["]"] ++ rest). rewrite app_assoc.
    apply between_app. }
  rewrite Hhost. clear Hhost.
  destruct (deref rest =? ":")%char eqn:Hcolon.
  - destruct (scan_suffix (λ c, (c =? "/")%char) (next rest)) as [w [Hcut Hw]].
    pose proof (scan_stops (λ c, (c =? "/")%char) (next rest)) as Hstop.
    assert (Hport : between (next rest) (scan (λ c, (c =? "/")%char) (next rest)) = w)
      by (rewrite Hcut at 1; apply between_app).
    rewrite Hport. clear Hport.
    remember (scan (λ c, (c =? "/")%char) (next rest)) as q eqn:Eq; clear Eq.
    at_char Hcolon.
    assert (Hgoal : ∀ r', host_ r' = "[" :: body ++ ["]"] → port_ r' = w →
                          host_ r' = "[" :: body ++ ["]"] ∧ port_after r' rest).
    { intros r' Hh Hp. split; [exact Hh|]. split.
      - intros rest' Hr'. rewrite Hr' in Hcut. simpl in Hcut.
        exists q. rewrite Hp. split; [exact Hcut|]. split.
        + rewrite List.Forall_forall in Hw. intros Hin. apply Hw in Hin.
          discriminate.
        + destruct Hstop as [->|Hstop]; [auto | right; char_cases; auto].
      - rewrite Hcolon. simpl. congruence. }
    destruct (deref q =? NUL)%char; [intros [= <-] _; apply Hgoal; reflexivity|].
    destruct (negb (deref q =? "/")%char); [intros [= <-]; discriminate|].
    intros Hr _. apply read_path_spells in Hr.
    destruct Hr as (_ & _ & _ & Hh & Hp & _). auto.
  - assert (Hgoal : ∀ r', host_ r' = "[" :: body ++ ["]"] → port_ r' = [] →
                          host_ r' = "[" :: body ++ ["]"] ∧ port_after r' rest).
    { intros r' Hh Hp. split; [exact Hh|]. split; [|auto].
      intros rest' ->. discriminate. }
    destruct (deref rest =? NUL)%char; [intros [= <-] _; apply Hgoal; reflexivity|].
    destruct (negb (deref rest =? "/")%char); [intros [= <-]; discriminate|].
    intros Hr _. apply read_path_spells in Hr.
    destruct Hr as (_ & _ & _ & Hh & Hp & _). auto.
Qed.

(** C8, as the code has it.  When the authority begins with ['['] and has
    no ['@'] before its first ['/'] (so that no credentials are read), a
    successful parse stores as host the text from the ['['] up to and
    including the first [']']; the [']'] does not end the host the way a
    port delimiter would, and a [':'] right after it starts the port,
    which runs to the next ['/'] or to the end. *)
Theorem parseURL_bracketed_host (URL : std_string) (cand : list ascii)
    (b : ascii) (body rest : list ascii) (r : ParseURL) :
  scheme_candidate (c_str URL) cand →
  c_str URL = cand ++ b :: "/" :: "/" :: "[" :: body ++ "]" :: rest →
  ¬ In "]" body →
  (∀ u t, "[" :: body ++ "]" :: rest = u ++ "@" :: t → In "/" u) →
  parseURL URL = Returned r →
  errorCode_ r = LUrlParserError_Ok →
  host_ r = "[" :: body ++ ["]"] ∧ port_after r rest.
Proof.
  intros Hcand Hs Hbody Hat Hr Hok.
  apply scheme_candidate_end in Hcand. destruct Hcand as [Hend Hfirst].
  rewrite (parseURL_from_scheme_end _ _ Hend) in Hr.
  assert (Hskip : skipn (length cand + 1) (c_str URL)
                  = "/" :: "/" :: "[" :: body ++ "]" :: rest).
  { rewrite Hs.
    change (b :: "/" :: "/" :: "[" :: body ++ "]" :: rest)
      with ([b] ++ "/" :: "/" :: "[" :: body ++ "]" :: rest).
    rewrite app_assoc.
    replace (length cand + 1)%nat with (length (cand ++ [b]))
      by (rewrite length_app; reflexivity).
    apply drop_app_length. }
  rewrite Hskip in Hr. clear Hskip.
  destruct (negb (isSchemeValid _)) in Hr; [injection Hr as <-; discriminate|].
  simpl in Hr. unfold read_authority in Hr.
  rewrite (has_user_name_false _ Hat) in Hr.
  eapply read_host_bracket; eauto.
Qed.

Lemma parseURL_bracketed_host_witness :
  ∃ r, parseURL #"http://[::1]:8080/index.html" = Returned r
       ∧ host_ r = #"[::1]" ∧ port_ r = #"8080".
Proof.
  eexists. split; [vm_compute; reflexivity|]. split; [|reflexivity].
  apply (parseURL_bracketed_host #"http://[::1]:8080/index.html"
           #"http" ":" #"::1" #":8080/index.html").
  - left. split; [simpl; intuition discriminate|].
    exists #"//[::1]:8080/index.html". reflexivity.
  - reflexivity.
  - simpl. intuition discriminate.
  - intros u t Hu. exfalso.
    assert (Hin : In "@" ("[" :: #"::1" ++ "]" :: #":8080/index.html"))
      by (rewrite Hu; apply in_elt).
    simpl in Hin. intuition discriminate.
  - vm_compute. reflexivity.
  - reflexivity.
Defined.

(** With credentials in front the same bracket is not the host: in
    ["http://[::1]@example.com/"] the authority begins with ['['], the
    look-ahead meets the ['@'], and the bracketed text goes to the user
    name and the password. *)
Lemma parseURL_bracket_in_credentials :
  ∃ r, parseURL #"http://[::1]@example.com/" = Returned r
       ∧ errorCode_ r = LUrlParserError_Ok
       ∧ userName_ r = #"[" ∧ password_ r = #":1]"
       ∧ host_ r = #"example.com" ∧ host_ r ≠ #"[::1]".
Proof.
  eexists. split; [vm_compute; reflexivity|].
  repeat split; try reflexivity. discriminate.
Qed.

(** ** The query loop (lines 254-264) *)

Lemma extract_shorter (delim : ascii) (s w rest : list ascii) :
  extract delim s = (w, Some rest) → (length rest < length s)%nat.
Proof.
  revert w. induction s as [|c s IH]; intros w; simpl; [discriminate|].
  destruct (c =? delim)%char; [intros [= _ <-]; lia|].
  destruct (extract delim s) as [w' [r|]]; intros [= _ <-].
  specialize (IH w' eq_refl). lia.
Qed.

(** A [getline] that succeeds consumes part of the stream. *)
Lemma getline_progress (ss : sstream) (str : std_string) (delim : ascii) :
  stream_ok (getline ss str delim).1 = true →
  (length (unread (getline ss str delim).1) < length (unread ss))%nat.
Proof.
  unfold getline, stream_ok.
  destruct (good ss); simpl; [|discriminate].
  destruct (extract delim (unread ss)) as [w [rest|]] eqn:He; simpl.
  - intros _. eapply extract_shorter; eauto.
  - destruct w; simpl; [discriminate|]. intros _.
    destruct (unread ss); [discriminate | simpl; lia].
Qed.

(** More rounds than the stream has characters change nothing: the
    [query.length() + 1] rounds of [parse_query] are enough. *)
Lemma query_loop_fuel (fuel fuel' : nat) (ss : sstream)
    (key_value key value : std_string) (m : gmap std_string std_string) :
  (length (unread ss) < fuel)%nat → (fuel <= fuel')%nat →
  query_loop fuel' ss key_value key value m
  = query_loop fuel ss key_value key value m.
Proof.
  revert fuel' ss key_value key value m.
  induction fuel as [|fuel IH]; intros fuel' ss kv k v m Hlen Hle; [lia|].
  destruct fuel' as [|fuel']; [lia|]. simpl.
  pose proof (getline_progress ss kv "&") as Hprog.
  destruct (getline ss kv "&") as [ss1 kv1]. simpl in Hprog.
  destruct (stream_ok ss1); simpl; [|reflexivity].
  destruct (getline (stringstream kv1) k "=") as [ss2 k1].
  destruct (getline ss2 v "&") as [ss3 v1].
  destruct (urlDecode v1); simpl; try reflexivity.
  apply IH; [specialize (Hprog eq_refl) |]; lia.
Qed.

(** ** The port accessor (lines 72-82) *)

(** A number that fits an [int] comes out of [atoi] as it is. *)
Lemma atoi_decimal_value (s : list ascii) :
  int_representable (decimal_value s) = true → atoi s = decimal_value s.
Proof.
  unfold atoi, strtol, int_of_long. fold (decimal_value s).
  unfold int_representable, INT_MIN, INT_MAX, LONG_MIN, LONG_MAX.
  intros H. apply andb_true_iff in H. destruct H as [H1 H2].
  apply Z.leb_le in H1, H2.
  replace (decimal_value s <? - 2 ^ 63)%Z with false
    by (symmetry; apply Z.ltb_ge; lia).
  replace (2 ^ 63 - 1 <? decimal_value s)%Z with false
    by (symmetry; apply Z.ltb_ge; lia).
  rewrite Z.mod_small by lia. lia.
Qed.

(** Where the number of the port fits an [int], [getPort] succeeds
    exactly on a valid record whose port denotes a number from 1 to
    65535, and yields that number. *)
Lemma getPort_Some (this : ParseURL) (port : Z) :
  int_representable (decimal_value (c_str (port_ this))) = true →
  (getPort this = Returned (Some port)
   ↔ errorCode_ this = LUrlParserError_Ok
     ∧ decimal_value (c_str (port_ this)) = port
     ∧ (0 < port <= 65535)%Z).
Proof.
  intros Hrep. unfold getPort, isValid.
  rewrite (atoi_decimal_value _ Hrep).
  set (v := decimal_value (c_str (port_ this))).
  destruct (decide (errorCode_ this = LUrlParserError_Ok)) as [Hok|Hne].
  - rewrite bool_decide_eq_true_2 by exact Hok. simpl.
    destruct (v <=? 0)%Z eqn:H0; simpl.
    + apply Z.leb_le in H0. split; [discriminate | lia].
    + apply Z.leb_gt in H0. destruct (65535 <? v)%Z eqn:H1.
      * apply Z.ltb_lt in H1. split; [discriminate | lia].
      * apply Z.ltb_ge in H1. split; [intros [= <-]; auto | ].
        intros (_ & <- & _). reflexivity.
  - rewrite bool_decide_eq_false_2 by exact Hne. simpl.
    split; [discriminate | tauto].
Qed.

(** The port of ["http://example.com:99999/"] is out of range: the record
    is valid and [getPort] returns [false]. *)
Lemma getPort_99999 :
  ∃ r, parseURL #"http://example.com:99999/" = Returned r
       ∧ isValid r = true ∧ getPort r = Returned None.
Proof. eexists. split; [vm_compute; reflexivity|]. split; reflexivity. Qed.

(** A port too large even for a [long] is clamped and then cut to -1:
    [getPort] returns [false]. *)
Lemma getPort_huge_example :
  ∃ r, parseURL #"http://example.com:99999999999999999999/" = Returned r
       ∧ isValid r = true ∧ getPort r = Returned None.
Proof. eexists. split; [vm_compute; reflexivity|]. split; reflexivity. Qed.

(** C9.  The port of ["http://example.com:4294967376/"] reads in base 10
    as 4294967376, above 65535, and the record is valid; yet [getPort]
    returns success with the port 80.  [atoi] cuts the number to the 32
    bits of an [int] before the range test of line 77 sees it. *)
Theorem getPort_overflow_example :
  ∃ r, parseURL #"http://example.com:4294967376/" = Returned r
       ∧ isValid r = true
       ∧ port_ r = #"4294967376"
       ∧ getPort r = Returned (Some 80%Z).
Proof. eexists. split; [vm_compute; reflexivity|]. repeat split. Qed.

(** * Further properties *)

(** ** More on the percent-decoder (lines 48-68) *)

Lemma digit_value_bound (base : Z) (c : ascii) (d : Z) :
  digit_value base c = Some d → (0 <= d < base)%Z.
Proof.
  unfold digit_value, isdigit, islower, isupper.
  destruct ((48 <=? code c)%nat && (code c <=? 57)%nat) eqn:H1.
  - apply andb_true_iff in H1. destruct H1 as [H1 _]. apply Nat.leb_le in H1.
    destruct (Z.of_nat (code c) - 48 <? base)%Z eqn:Hb; [|discriminate].
    intros [= <-]. apply Z.ltb_lt in Hb. lia.
  - destruct ((97 <=? code c)%nat && (code c <=? 122)%nat) eqn:H2.
    + apply andb_true_iff in H2. destruct H2 as [H2 _]. apply Nat.leb_le in H2.
      destruct (Z.of_nat (code c) - 87 <? base)%Z eqn:Hb; [|discriminate].
      intros [= <-]. apply Z.ltb_lt in Hb. lia.
    + destruct ((65 <=? code c)%nat && (code c <=? 90)%nat) eqn:H3;
        [|discriminate].
      apply andb_true_iff in H3. destruct H3 as [H3 _]. apply Nat.leb_le in H3.
      destruct (Z.of_nat (code c) - 55 <? base)%Z eqn:Hb; [|discriminate].
      intros [= <-]. apply Z.ltb_lt in Hb. lia.
Qed.

Lemma digits_bound (s : list ascii) (acc : Z) (n : nat) :
  (0 <= acc)%Z → (length s <= n)%nat →
  (0 <= digits 16 acc s < (acc + 1) * 16 ^ Z.of_nat n)%Z.
Proof.
  revert acc n. induction s as [|c s IH]; intros acc n Hacc Hn; simpl.
  - assert (0 < 16 ^ Z.of_nat n)%Z by (apply Z.pow_pos_nonneg; lia). nia.
  - destruct (digit_value 16 c) as [d|] eqn:Hd.
    + apply digit_value_bound in Hd. simpl in Hn.
      destruct n as [|n]; [lia|].
      specialize (IH (acc * 16 + d)%Z n ltac:(lia) ltac:(lia)).
      rewrite Nat2Z.inj_succ, Z.pow_succ_r by lia.
      assert (0 < 16 ^ Z.of_nat n)%Z by (apply Z.pow_pos_nonneg; lia). nia.
    + assert (0 < 16 ^ Z.of_nat n)%Z by (apply Z.pow_pos_nonneg; lia). nia.
Qed.

Lemma skip_space_length (s : list ascii) :
  (length (skip_space s) <= length s)%nat.
Proof.
  induction s as [|c s IH]; simpl; [lia|].
  destruct (isspace c); simpl; lia.
Qed.

Lemma c_str_length (s : std_string) : (length (c_str s) <= length s)%nat.
Proof.
  induction s as [|c s IH]; simpl; [lia|].
  destruct (c =? NUL)%char; simpl; lia.
Qed.

(** What [strtol] reads in base 16 is below [16 ^ length] in size. *)
Lemma strtol_value_16_bound (s : list ascii) (v : Z) :
  strtol_value 16 s = Some v →
  (- 16 ^ Z.of_nat (length s) < v < 16 ^ Z.of_nat (length s))%Z.
Proof.
  unfold strtol_value.
  pose proof (skip_space_length s) as Hsp.
  remember (skip_space s) as s0 eqn:E0; clear E0.
  assert (Hs1 : (length (read_sign s0).2 <= length s0)%nat).
  { unfold read_sign. destruct s0 as [|c s0]; simpl; [lia|].
    destruct (c =? "-")%char; simpl; [lia|].
    destruct (c =? "+")%char; simpl; lia. }
  destruct (read_sign s0) as [neg s1]. simpl in Hs1.
  set (s2 := match s1 with
             | z :: x :: s' =>
                 if (16 =? 16)%Z && (z =? "0")%char
                    && ((x =? "x")%char || (x =? "X")%char)
                    && starts_with_digit 16 s'
                 then s' else s1
             | _ => s1
             end).
  assert (Hs2 : (length s2 <= length s1)%nat).
  { unfold s2. destruct s1 as [|z [|x s']]; simpl; try lia.
    destruct (_ && _); simpl; lia. }
  destruct (starts_with_digit 16 s2); [|discriminate].
  pose proof (digits_bound s2 0 (length s) ltac:(lia) ltac:(lia)) as Hb.
  destruct neg; intros [= <-]; lia.
Qed.

Lemma stoi_two_chars (a b : ascii) :
  (∃ v, stoi [a; b] 16 = Returned v)
  ∨ stoi [a; b] 16 = Thrown (invalid_argument "stoi").
Proof.
  unfold stoi.
  destruct (strtol_value 16 (c_str [a; b])) as [v|] eqn:Hv; [|auto].
  apply strtol_value_16_bound in Hv.
  pose proof (c_str_length [a; b]) as Hlen. simpl length in Hlen at 2.
  assert (16 ^ Z.of_nat (length (c_str [a; b])) <= 16 ^ 2)%Z
    by (apply Z.pow_le_mono_r; lia).
  replace (int_representable v) with true; [eauto|].
  symmetry. unfold int_representable, INT_MIN, INT_MAX.
  apply andb_true_iff. split; apply Z.leb_le; lia.
Qed.

Lemma decode_tail_outcomes (n : nat) (v : list ascii) :
  (length v <= n)%nat →
  (∃ out, decode_tail v = Returned out)
  ∨ decode_tail v = Thrown (invalid_argument "Invalid URL encoding")
  ∨ decode_tail v = Thrown (invalid_argument "stoi").
Proof.
  revert v. induction n as [|n IH]; intros v Hn.
  - destruct v; simpl in Hn; [|lia]. left. eexists. reflexivity.
  - destruct v as [|c rest]; [left; eexists; reflexivity|].
    simpl in Hn. cbn [decode_tail].
    assert (Hmap : ∀ (x : ascii) (t : list ascii), (length t <= n)%nat →
              (∃ out, cons x <$> decode_tail t = Returned out)
              ∨ cons x <$> decode_tail t
                = Thrown (invalid_argument "Invalid URL encoding")
              ∨ cons x <$> decode_tail t = Thrown (invalid_argument "stoi")).
    { intros x t Ht. destruct (IH t Ht) as [[out ->] | [-> | ->]]; eauto. }
    destruct (c =? "%")%char.
    + destruct rest as [|a [|b rest']]; auto.
      destruct (stoi_two_chars a b) as [[h ->] | ->]; [|auto].
      apply Hmap. simpl in Hn. lia.
    + destruct (c =? "+")%char; apply Hmap; lia.
Qed.

(** X1.  [urlDecode] either returns or throws one of its two
    [std::invalid_argument]: the one of line 53 or the one of [std::stoi].
    It never throws [std::out_of_range] (two characters cannot overflow an
    [int]) and has no undefined outcome. *)
Theorem urlDecode_outcomes (value : std_string) :
  (∃ decoded, urlDecode value = Returned decoded)
  ∨ urlDecode value = Thrown (invalid_argument "Invalid URL encoding")
  ∨ urlDecode value = Thrown (invalid_argument "stoi").
Proof.
  rewrite urlDecode_decode_tail. apply (decode_tail_outcomes (length value)). lia.
Qed.

Lemma outcome_fmap_Returned {A B} (f : A → B) (m : outcome A) (b : B) :
  f <$> m = Returned b → ∃ a, m = Returned a ∧ b = f a.
Proof. destruct m; simpl; intros [= <-]. eauto. Qed.

Lemma decode_tail_app (n : nat) (a b x : list ascii) :
  (length a <= n)%nat →
  decode_tail a = Returned x →
  decode_tail (a ++ b) = app x <$> decode_tail b.
Proof.
  revert a x. induction n as [|n IH]; intros a x Hn.
  - destruct a; simpl in Hn; [|lia]. intros [= <-]. simpl.
    symmetry. apply outcome_fmap_id.
  - destruct a as [|c rest]; [intros [= <-]; symmetry; apply outcome_fmap_id|].
    simpl in Hn. cbn [decode_tail app].
    destruct (c =? "%")%char.
    + destruct rest as [|a1 [|b1 rest']]; try discriminate.
      cbn [app].
      destruct (stoi [a1; b1] 16) as [h| |]; try discriminate.
      change (cons (char_of_int h) <$> decode_tail rest' = Returned x →
              cons (char_of_int h) <$> decode_tail (rest' ++ b)
              = app x <$> decode_tail b).
      intros Hx. apply outcome_fmap_Returned in Hx. destruct Hx as [o [Ho ->]].
      rewrite (IH rest' o) by (simpl in Hn; auto; lia).
      apply outcome_fmap_fmap.
    + destruct (c =? "+")%char; intros Hx;
        apply outcome_fmap_Returned in Hx; destruct Hx as [o [Ho ->]];
        rewrite (IH rest o) by (auto; lia); apply outcome_fmap_fmap.
Qed.

(** X2.  Decoding distributes over concatenation: when a first text
    decodes, decoding it followed by a second text gives its decoding
    followed by what the second text decodes to, or the failure of the
    second text. *)
Theorem urlDecode_app (a b decoded : std_string) :
  urlDecode a = Returned decoded →
  urlDecode (a ++ b) = app decoded <$> urlDecode b.
Proof.
  rewrite !urlDecode_decode_tail. apply (decode_tail_app (length a)). lia.
Qed.

Lemma urlDecode_app_witness :
  urlDecode (#"a%20b" ++ #"+c%2") = app #"a b" <$> urlDecode #"+c%2"
  ∧ urlDecode (#"a%20b" ++ #"+c%21") = Returned #"a b c!".
Proof.
  split.
  - apply (urlDecode_app #"a%20b" #"+c%2" #"a b"). reflexivity.
  - rewrite (urlDecode_app #"a%20b" #"+c%21" #"a b"); reflexivity.
Defined.

Lemma urlDecode_plain (value : std_string) :
  ¬ In "%" value →
  urlDecode value = Returned (map plus_to_space value).
Proof.
  rewrite urlDecode_decode_tail.
  induction value as [|c rest IH]; simpl; intros Hn; [reflexivity|].
  destruct (c =? "%")%char eqn:Hc; [char_cases; tauto|].
  unfold plus_to_space at 1.
  destruct (c =? "+")%char; rewrite IH by tauto; reflexivity.
Qed.

(** X3.  A text without ['%'] always decodes, to itself with every ['+']
    turned into a space. *)
Theorem urlDecode_no_percent (value : std_string) :
  ¬ In "%" value →
  urlDecode value = Returned (map plus_to_space value).
Proof. apply urlDecode_plain. Qed.

Lemma urlDecode_no_percent_witness :
  urlDecode #"New+York+City" = Returned #"New York City".
Proof.
  apply (urlDecode_no_percent #"New+York+City").
  simpl. intuition discriminate.
Defined.

Lemma decode_tail_length (n : nat) (v out : list ascii) :
  (length v <= n)%nat →
  decode_tail v = Returned out → (length out <= length v)%nat.
Proof.
  revert v out. induction n as [|n IH]; intros v out Hn.
  - destruct v; simpl in Hn; [|lia]. intros [= <-]. simpl. lia.
  - destruct v as [|c rest]; [intros [= <-]; simpl; lia|].
    simpl in Hn. cbn [decode_tail].
    destruct (c =? "%")%char.
    + destruct rest as [|a [|b rest']]; try discriminate.
      destruct (stoi [a; b] 16) as [h| |]; try discriminate.
      change (cons (char_of_int h) <$> decode_tail rest' = Returned out →
              (length out <= length (c :: a :: b :: rest'))%nat).
      intros Hx. apply outcome_fmap_Returned in Hx. destruct Hx as [o [Ho ->]].
      apply IH in Ho; [|simpl in Hn; lia]. simpl. lia.
    + destruct (c =? "+")%char; intros Hx;
        apply outcome_fmap_Returned in Hx; destruct Hx as [o [Ho ->]];
        apply IH in Ho; try lia; simpl; lia.
Qed.

(** X4.  The decoded text is never longer than the encoded one. *)
Theorem urlDecode_length (value decoded : std_string) :
  urlDecode value = Returned decoded →
  (length decoded <= length value)%nat.
Proof.
  rewrite urlDecode_decode_tail. apply (decode_tail_length (length value)). lia.
Qed.

Lemma urlDecode_length_witness :
  urlDecode #"%41%42+%43" = Returned #"AB C"
  ∧ (length #"AB C" <= length #"%41%42+%43")%nat.
Proof.
  split; [reflexivity|].
  apply (urlDecode_length #"%41%42+%43" #"AB C"). reflexivity.
Defined.

(** ** More on the query loop (lines 254-264) *)

Lemma extract_no_delim (delim : ascii) (s : list ascii) :
  ¬ In delim s → extract delim s = (s, None).
Proof.
  induction s as [|c s IH]; simpl; intros Hn; [reflexivity|].
  destruct (c =? delim)%char eqn:Hc; [char_cases; tauto|].
  rewrite IH by tauto. reflexivity.
Qed.

Lemma extract_app (delim : ascii) (s rest : list ascii) :
  ¬ In delim s → extract delim (s ++ delim :: rest) = (s, Some rest).
Proof.
  induction s as [|c s IH]; simpl; intros Hn.
  - rewrite Ascii.eqb_refl. reflexivity.
  - destruct (c =? delim)%char eqn:Hc; [char_cases; tauto|].
    rewrite IH by tauto. reflexivity.
Qed.

Lemma extract_found (delim : ascii) (s w rest : list ascii) :
  extract delim s = (w, Some rest) → s = w ++ delim :: rest ∧ ¬ In delim w.
Proof.
  revert w. induction s as [|c s IH]; intros w; simpl; [discriminate|].
  destruct (c =? delim)%char eqn:Hc.
  - intros [= <- <-]. char_cases. subst c. auto.
  - destruct (extract delim s) as [w' [r|]]; intros [= <- <-].
    destruct (IH w' eq_refl) as [-> Hn]. char_cases.
    split; [reflexivity|]. simpl. intros [H|H]; auto.
Qed.

(** Lines 259-261: the two inner [getline] cut the pair as [split_pair]. *)
Lemma inner_getline (item key value : std_string) :
  ¬ In "&" item →
  (let (ss2, key') := getline (stringstream item) key "=" in
   (key', (getline ss2 value "&").2)) = split_pair item value.
Proof.
  intros Hn. unfold getline at 1, stringstream, split_pair, good. simpl.
  destruct (extract "=" item) as [k [v|]] eqn:He.
  - unfold getline, good. simpl.
    apply extract_found in He. destruct He as [-> _].
    rewrite extract_no_delim; [reflexivity|].
    intros H. apply Hn. apply in_or_app. right. right. exact H.
  - unfold getline, good. simpl. destruct k; reflexivity.
Qed.

Lemma query_loop_pairs (pairs : list std_string) :
  Forall (λ item, ¬ In "&" item) pairs → last pairs ≠ Some [] →
  ∀ fuel key_value key value m,
    (length (join_amp pairs) < fuel)%nat →
    query_loop fuel (stringstream (join_amp pairs)) key_value key value m
    = insert_pairs pairs value m.
Proof.
  induction pairs as [|item rest IH]; intros Hall Hlast fuel kv k v m Hfuel.
  - destruct fuel; [simpl in Hfuel; lia|]. reflexivity.
  - inversion Hall as [|? ? Hpair Hrest]; subst.
    destruct fuel as [|fuel]; [lia|].
    cbn [query_loop insert_pairs].
    pose proof (inner_getline item k v Hpair) as Hinner.
    destruct rest as [|item2 rest].
    + cbn [join_amp] in *.
      assert (Hne : item ≠ []) by (intros ->; apply Hlast; reflexivity).
      unfold getline at 1, stringstream at 1, good. simpl.
      rewrite extract_no_delim by exact Hpair.
      destruct item as [|c item]; [congruence|]. simpl stream_ok. cbn [negb].
      destruct (getline (stringstream (c :: item)) k "=") as [ss2 key'].
      destruct (getline ss2 v "&") as [ss3 value'] eqn:Hg. simpl in Hinner.
      rewrite <- Hinner.
      destruct (urlDecode value'); try reflexivity. simpl mbind.
      unfold mbind, outcome_bind.
      destruct fuel as [|fuel]; [simpl in Hfuel; lia|]. reflexivity.
    + cbn [join_amp] in *.
      unfold getline at 1, stringstream at 1, good. simpl.
      rewrite extract_app by exact Hpair. simpl stream_ok. cbn [negb].
      destruct (getline (stringstream item) k "=") as [ss2 key'].
      destruct (getline ss2 v "&") as [ss3 value'] eqn:Hg. simpl in Hinner.
      rewrite <- Hinner.
      destruct (urlDecode value'); try reflexivity.
      unfold mbind, outcome_bind.
      apply (IH Hrest).
      * intros H. apply Hlast. rewrite last_cons. rewrite H. reflexivity.
      * rewrite length_app in Hfuel. simpl in Hfuel. lia.
Qed.

Lemma parse_query_as_pairs (pairs : list std_string) :
  Forall (λ item, ¬ In "&" item) pairs → last pairs ≠ Some [] →
  parse_query (join_amp pairs) = insert_pairs pairs [] ∅.
Proof.
  intros Hall Hlast. unfold parse_query.
  apply query_loop_pairs; auto.
Qed.

(** X5.  The query loop, told by the pairs of the query: for pairs free
    of ['&'], the last of them not empty, parsing their text joined by
    ['&'] stores them one after the other, each under the text before
    its first ['='] (not decoded) with the decoding of the text after it;
    a pair without ['='] takes the raw value of the pair before it. *)
Theorem parse_query_pairs (pairs : list std_string) :
  Forall (λ item, ¬ In "&" item) pairs → last pairs ≠ Some [] →
  parse_query (join_amp pairs) = insert_pairs pairs [] ∅.
Proof. apply parse_query_as_pairs. Qed.

Lemma parse_query_pairs_witness :
  parse_query #"a=1&b&c=x%20y"
  = Returned (<[#"c" := #"x y"]> (<[#"b" := #"1"]> (<[#"a" := #"1"]> ∅))).
Proof.
  etransitivity;
    [apply (parse_query_pairs [ #"a=1"; #"b"; #"c=x%20y"]) | reflexivity].
  - repeat constructor; simpl; intuition discriminate.
  - discriminate.
Defined.

Lemma split_pair_key (item value : std_string) :
  (split_pair item value).1 = key_of item.
Proof.
  unfold split_pair, key_of. destruct (extract "=" item) as [k [v|]]; reflexivity.
Qed.

Lemma split_pair_with_value (key v value : std_string) :
  ¬ In "=" key → split_pair (key ++ "=" :: v) value = (key, v).
Proof. intros Hk. unfold split_pair. rewrite extract_app by exact Hk. reflexivity. Qed.

Lemma insert_pairs_step (item : std_string) (rest : list std_string)
    (value : std_string) (m mf : gmap std_string std_string) :
  insert_pairs (item :: rest) value m = Returned mf →
  ∃ decoded,
    urlDecode (split_pair item value).2 = Returned decoded
    ∧ insert_pairs rest (split_pair item value).2
        (<[key_of item := decoded]> m) = Returned mf.
Proof.
  cbn [insert_pairs]. rewrite <- split_pair_key with (value := value).
  destruct (split_pair item value) as [k v]. simpl.
  destruct (urlDecode v) as [d| |]; try discriminate. eauto.
Qed.

Lemma insert_pairs_other (k : std_string) (items : list std_string) :
  (∀ item, In item items → key_of item ≠ k) →
  ∀ value m mf, insert_pairs items value m = Returned mf → mf !! k = m !! k.
Proof.
  induction items as [|item rest IH]; intros Hk value m mf.
  - intros [= <-]. reflexivity.
  - intros H. apply insert_pairs_step in H. destruct H as (d & _ & H).
    apply IH in H; [|intros it Hit; apply Hk; right; exact Hit].
    rewrite H. apply lookup_insert_ne. apply Hk. left. reflexivity.
Qed.

Lemma insert_pairs_suffix (pre items : list std_string) :
  ∀ value m mf, insert_pairs (pre ++ items) value m = Returned mf →
  ∃ value' m', insert_pairs items value' m' = Returned mf.
Proof.
  induction pre as [|item pre IH]; intros value m mf; [eauto|].
  simpl app. intros H. apply insert_pairs_step in H.
  destruct H as (d & _ & H). eauto.
Qed.

Lemma insert_pairs_keys (items : list std_string) :
  ∀ value m mf, insert_pairs items value m = Returned mf →
  ∀ k, is_Some (mf !! k) ↔ is_Some (m !! k) ∨ In k (map key_of items).
Proof.
  induction items as [|item rest IH]; intros value m mf.
  - intros [= <-] k. simpl. tauto.
  - intros H k. apply insert_pairs_step in H. destruct H as (d & _ & H).
    rewrite (IH _ _ _ H k). simpl.
    destruct (decide (key_of item = k)) as [->|Hne].
    + rewrite lookup_insert_eq. split; [auto | intros _; left; eauto].
    + rewrite lookup_insert_ne by exact Hne. tauto.
Qed.

(** X6.  Later pairs overwrite earlier ones: the value stored for a key is
    the decoding of what follows the ['='] in the last pair that carries
    this key. *)
Theorem parse_query_last_wins (before after : list std_string)
    (key v decoded : std_string) (m : gmap std_string std_string) :
  Forall (λ item, ¬ In "&" item) (before ++ (key ++ "=" :: v) :: after) →
  last (before ++ (key ++ "=" :: v) :: after) ≠ Some [] →
  ¬ In "=" key →
  (∀ item, In item after → key_of item ≠ key) →
  urlDecode v = Returned decoded →
  parse_query (join_amp (before ++ (key ++ "=" :: v) :: after)) = Returned m →
  m !! key = Some decoded.
Proof.
  intros Hall Hlast Hkey Hafter Hv Hm.
  rewrite parse_query_as_pairs in Hm by assumption.
  apply insert_pairs_suffix in Hm. destruct Hm as (value' & m' & Hm).
  apply insert_pairs_step in Hm. destruct Hm as (d & Hd & Hm).
  rewrite split_pair_with_value in Hd by exact Hkey. simpl in Hd.
  assert (d = decoded) by congruence. subst d.
  rewrite (insert_pairs_other key after Hafter _ _ _ Hm).
  unfold key_of. rewrite extract_app by exact Hkey. apply lookup_insert_eq.
Qed.

Lemma parse_query_last_wins_witness :
  ∃ m, parse_query #"a=1&b=x&a=2&c" = Returned m ∧ m !! #"a" = Some #"2".
Proof.
  eexists. split; [vm_compute; reflexivity|].
  apply (parse_query_last_wins [ #"a=1"; #"b=x"] [ #"c"] #"a" #"2" #"2").
  - repeat constructor; simpl; intuition discriminate.
  - discriminate.
  - simpl. intuition discriminate.
  - intros item [<-|[]]. discriminate.
  - reflexivity.
  - vm_compute. reflexivity.
Defined.

(** X7.  The keys of the parameter map are exactly the keys of the pairs:
    looking up a key that no pair carries finds nothing. *)
Theorem parse_query_keys (pairs : list std_string)
    (m : gmap std_string std_string) (key : std_string) :
  Forall (λ item, ¬ In "&" item) pairs → last pairs ≠ Some [] →
  parse_query (join_amp pairs) = Returned m →
  (is_Some (m !! key) ↔ In key (map key_of pairs)).
Proof.
  intros Hall Hlast Hm.
  rewrite parse_query_as_pairs in Hm by assumption.
  rewrite (insert_pairs_keys _ _ _ _ Hm key).
  rewrite lookup_empty. split; [intros [[x Hx]|H]; [discriminate | exact H] | auto].
Qed.

Lemma parse_query_keys_witness :
  ∃ m, parse_query #"a=1&b=x" = Returned m
       ∧ is_Some (m !! #"b") ∧ m !! #"c" = None.
Proof.
  eexists. split; [vm_compute; reflexivity|].
  assert (H : ∀ key, is_Some
                (<[ #"b" := #"x"]> (<[ #"a" := #"1"]> (∅ : gmap std_string std_string)) !! key)
              ↔ In key (map key_of [ #"a=1"; #"b=x"])).
  { intros key. apply (parse_query_keys [ #"a=1"; #"b=x"]).
    - repeat constructor; simpl; intuition discriminate.
    - discriminate.
    - vm_compute. reflexivity. }
  split.
  - apply H. simpl. auto.
  - apply eq_None_not_Some. intros Hc. apply H in Hc. simpl in Hc.
    destruct Hc as [Hc|[Hc|[]]]; discriminate.
Defined.

(** ** Where [parseURL] is defined, and when it throws *)

Lemma urlDecode_throws (value : std_string) (e : exception) :
  urlDecode value = Thrown e →
  e = invalid_argument "Invalid URL encoding" ∨ e = invalid_argument "stoi".
Proof.
  rewrite urlDecode_decode_tail.
  destruct (decode_tail_outcomes (length value) value (le_n _))
    as [[out ->] | [-> | ->]]; intros [= <-]; auto.
Qed.

Lemma urlDecode_defined (value : std_string) : urlDecode value ≠ Undefined.
Proof.
  rewrite urlDecode_decode_tail.
  destruct (decode_tail_outcomes (length value) value (le_n _))
    as [[out ->] | [-> | ->]]; discriminate.
Qed.

Lemma extract_In (c delim : ascii) (s w : list ascii) (r : option (list ascii)) :
  extract delim s = (w, r) →
  (In c w → In c s) ∧ (∀ rest, r = Some rest → In c rest → In c s).
Proof.
  revert w r. induction s as [|x s IH]; intros w r; simpl.
  - intros [= <- <-]. split; [tauto | discriminate].
  - destruct (x =? delim)%char.
    + intros [= <- <-]. split; [simpl; tauto|]. intros rest [= <-]. auto.
    + destruct (extract delim s) as [w' r'] eqn:He. intros [= <- <-].
      destruct (IH w' r' eq_refl) as [Hw Hr]. split.
      * simpl. intros [H|H]; auto.
      * intros rest Hrest Hin. right. eapply Hr; eauto.
Qed.

(** [getline] hands out characters of the stream or leaves the string. *)
Lemma getline_In (c : ascii) (ss : sstream) (str : std_string) (delim : ascii) :
  (In c (unread (getline ss str delim).1) → In c (unread ss))
  ∧ (In c (getline ss str delim).2 → In c (unread ss) ∨ In c str).
Proof.
  unfold getline. destruct (good ss); simpl; [|tauto].
  destruct (extract delim (unread ss)) as [w [rest|]] eqn:He; simpl;
    destruct (extract_In c _ _ _ _ He) as [Hw Hr]; split; eauto; tauto.
Qed.

Lemma getline_ok_In (c : ascii) (ss : sstream) (str : std_string) (delim : ascii) :
  stream_ok (getline ss str delim).1 = true →
  In c (getline ss str delim).2 → In c (unread ss).
Proof.
  unfold getline, stream_ok. destruct (good ss); simpl; [|discriminate].
  destruct (extract delim (unread ss)) as [w [rest|]] eqn:He; simpl;
    destruct (extract_In c _ _ _ _ He) as [Hw Hr]; auto.
Qed.

(** The loop returns, or throws what [urlDecode] throws, and throws only
    when a ['%'] is in the text still to read or in the value kept. *)
Lemma query_loop_outcomes (fuel : nat) :
  ∀ ss key_value key value m,
    (∃ mf, query_loop fuel ss key_value key value m = Returned mf)
    ∨ (∃ e, query_loop fuel ss key_value key value m = Thrown e
            ∧ (e = invalid_argument "Invalid URL encoding"
               ∨ e = invalid_argument "stoi")
            ∧ (In "%" (unread ss) ∨ In "%" value)).
Proof.
  induction fuel as [|fuel IH]; intros ss kv k v m; [left; eexists; reflexivity|].
  cbn [query_loop].
  pose proof (getline_In "%" ss kv "&") as [Hs1 _].
  pose proof (getline_ok_In "%" ss kv "&") as Hk1.
  destruct (getline ss kv "&") as [ss1 kv1]. simpl in Hs1, Hk1.
  destruct (stream_ok ss1); simpl negb; cbn iota; [|left; eexists; reflexivity].
  specialize (Hk1 eq_refl).
  pose proof (getline_In "%" (stringstream kv1) k "=") as [Hs2 _].
  destruct (getline (stringstream kv1) k "=") as [ss2 k1]. simpl in Hs2.
  pose proof (getline_In "%" ss2 v "&") as [_ Hv].
  destruct (getline ss2 v "&") as [ss3 v1]. simpl in Hv.
  assert (Hfrom : In "%" v1 → In "%" (unread ss) ∨ In "%" v).
  { intros Hin. destruct (Hv Hin) as [H|H]; [left; auto | right; exact H]. }
  destruct (urlDecode v1) as [d|e|] eqn:Hd.
  - destruct (IH ss1 kv1 k1 v1 (<[k1 := d]> m)) as [Hr | (e & He & Hk & Hin)].
    + left. exact Hr.
    + right. exists e. split; [exact He|]. split; [exact Hk|].
      destruct Hin as [Hin|Hin]; [left; auto | auto].
  - right. exists e. split; [reflexivity|].
    split; [eapply urlDecode_throws; eauto|].
    apply Hfrom. destruct (In_dec ascii_dec "%" v1) as [Hin|Hin]; [exact Hin|].
    rewrite (urlDecode_plain _ Hin) in Hd. discriminate.
  - exfalso. eapply urlDecode_defined; eauto.
Qed.

Lemma next_In (c : ascii) (p : list ascii) : In c (next p) → In c p.
Proof. destruct p; simpl; auto. Qed.

Lemma between_In (c : ascii) (p q : list ascii) : In c (between p q) → In c p.
Proof.
  unfold between. intros H. rewrite <- (firstn_skipn (length p - length q) p).
  apply in_or_app. left. exact H.
Qed.

Lemma scan_In (c : ascii) (stop : ascii → bool) (p : list ascii) :
  In c (scan stop p) → In c p.
Proof.
  destruct (scan_suffix stop p) as [w [Hp _]]. intros H.
  rewrite Hp. apply in_or_app. right. exact H.
Qed.

Lemma host_end_In (c : ascii) (b : bool) (p : list ascii) :
  In c (host_end b p) → In c p.
Proof.
  destruct (host_end_suffix b p) as [w Hp]. intros H.
  rewrite Hp. apply in_or_app. right. exact H.
Qed.

Lemma skipn_In (c : ascii) (n : nat) (p : list ascii) :
  In c (skipn n p) → In c p.
Proof.
  intros H. rewrite <- (firstn_skipn n p). apply in_or_app. right. exact H.
Qed.

Lemma read_path_outcomes scheme u pw h po p :
  throws_on_percent (read_path scheme u pw h po p) p.
Proof.
  unfold read_path, throws_on_percent.
  set (q1 := scan (λ c, (c =? "#")%char || (c =? "?")%char) p).
  destruct (deref q1 =? "?")%char eqn:Hq; simpl; [|left; eexists; reflexivity].
  set (q2 := scan (λ c, (c =? "#")%char) (next q1)).
  unfold parse_query.
  destruct (query_loop_outcomes (S (length (between (next q1) q2)))
              (stringstream (between (next q1) q2)) [] [] [] ∅)
    as [[mf ->] | (e & -> & Hk & Hin)]; simpl.
  - left. eexists. reflexivity.
  - right. exists e. split; [reflexivity|]. split; [exact Hk|].
    at_char Hq. split.
    + apply (scan_In _ (λ c, (c =? "#")%char || (c =? "?")%char)).
      fold q1. rewrite Hq. left. reflexivity.
    + destruct Hin as [Hin|[]].
      apply (scan_In _ (λ c, (c =? "#")%char || (c =? "?")%char)).
      fold q1. apply next_In. eapply between_In. exact Hin.
Qed.

Lemma throws_on_percent_mono (m : outcome ParseURL) (p q : list ascii) :
  (∀ c, In c p → In c q) → throws_on_percent m p → throws_on_percent m q.
Proof.
  intros Hpq [Hr | (e & He & Hk & H1 & H2)]; [left; exact Hr|].
  right. exists e. auto.
Qed.

Lemma read_host_outcomes scheme u pw p :
  throws_on_percent (read_host scheme u pw p) p.
Proof.
  unfold read_host.
  set (q := host_end (deref p =? "[")%char p).
  assert (Hq : ∀ c, In c q → In c p) by (intros c; apply host_end_In).
  destruct (deref q =? ":")%char.
  - set (q2 := scan (λ c, (c =? "/")%char) (next q)).
    assert (Hq2 : ∀ c, In c (next q2) → In c p).
    { intros c H. apply Hq. apply next_In. eapply scan_In. apply next_In.
      exact H. }
    destruct (deref q2 =? NUL)%char; [left; eexists; reflexivity|].
    destruct (negb (deref q2 =? "/")%char); [left; eexists; reflexivity|].
    eapply throws_on_percent_mono; [exact Hq2 | apply read_path_outcomes].
  - destruct (deref q =? NUL)%char; [left; eexists; reflexivity|].
    destruct (negb (deref q =? "/")%char); [left; eexists; reflexivity|].
    eapply throws_on_percent_mono; [|apply read_path_outcomes].
    intros c H. apply Hq. apply next_In. exact H.
Qed.

Lemma read_credentials_In (c : ascii) (p : list ascii) u pw q :
  read_credentials p = inr (u, pw, q) → In c q → In c p.
Proof.
  intros H Hin. apply read_credentials_spells in H.
  destruct H as [[-> _] | ->]; apply in_or_app; right; simpl; auto.
  right. apply in_or_app. right. simpl. auto.
Qed.

Lemma read_authority_outcomes scheme p :
  throws_on_percent (read_authority scheme p) p.
Proof.
  unfold read_authority.
  destruct (has_user_name p).
  - destruct (read_credentials p) as [e|[[u pw] q]] eqn:Hc;
      [left; eexists; reflexivity|].
    eapply throws_on_percent_mono; [|apply read_host_outcomes].
    intros c. eapply read_credentials_In; eauto.
  - apply read_host_outcomes.
Qed.

Lemma scheme_end_Undefined (s : list ascii) :
  scheme_end s = Undefined
  ↔ ¬ In ":" s ∧ (¬ In "/" s ∨ deref s = "/").
Proof.
  unfold scheme_end, strchr.
  destruct (find_char ":" s) as [i|] eqn:Hc.
  - split; [discriminate|]. intros [Hn _]. apply find_char_None in Hn.
    congruence.
  - apply find_char_None in Hc.
    destruct (find_char "/" s) as [[|i]|] eqn:Hs; simpl.
    + split; [|reflexivity]. intros _. split; [exact Hc|]. right.
      destruct (find_char_Some _ _ _ Hs) as (rest & -> & _). reflexivity.
    + split; [discriminate|]. intros [_ [Hn|Hd]].
      * apply find_char_None in Hn. congruence.
      * apply deref_cons in Hd; [|discriminate]. rewrite Hd in Hs.
        simpl in Hs. discriminate.
    + split; [|reflexivity]. intros _. split; [exact Hc|]. left.
      apply find_char_None. exact Hs.
Qed.

Lemma scheme_end_not_Thrown (s : list ascii) (e : exception) :
  scheme_end s ≠ Thrown e.
Proof.
  unfold scheme_end. destruct (strchr s ":"); [|discriminate].
  destruct (strchr s "/") as [|[|i]]; discriminate.
Qed.

(** What [parseURL] gives once the scheme boundary is computed. *)
Lemma parseURL_after_scheme_end (URL : std_string) (n : nat) :
  scheme_end (c_str URL) = Returned (at_index n) →
  throws_on_percent (parseURL URL) (c_str URL).
Proof.
  intros Hn. rewrite (parseURL_from_scheme_end _ _ Hn).
  destruct (negb (isSchemeValid _)); [left; eexists; reflexivity|].
  cbv zeta.
  destruct (negb (deref _ =? "/")%char); [left; eexists; reflexivity|].
  destruct (negb (deref _ =? "/")%char); [left; eexists; reflexivity|].
  eapply throws_on_percent_mono; [|apply read_authority_outcomes].
  intros c H. do 2 apply next_In in H. eapply skipn_In. exact H.
Qed.

(** X8.  [parseURL] returns a record only for an input that, up to its
    first NUL, has a [':'] or has a ['/'] that is not its first character.
    For every other input (the empty text, a bare word, a text that starts
    with ['/']) line 99 leaves the buffer and no record comes back, not
    even an error record. *)
Theorem parseURL_record_needs_boundary (URL : std_string) (r : ParseURL) :
  parseURL URL = Returned r →
  In ":" (c_str URL) ∨ (In "/" (c_str URL) ∧ deref (c_str URL) ≠ "/").
Proof.
  intros Hr.
  destruct (In_dec ascii_dec ":" (c_str URL)) as [Hc|Hc]; [left; exact Hc|].
  right.
  destruct (In_dec ascii_dec "/" (c_str URL)) as [Hs|Hs].
  - split; [exact Hs|]. intros Hd.
    assert (Hu : scheme_end (c_str URL) = Undefined)
      by (apply scheme_end_Undefined; auto).
    unfold parseURL in Hr. rewrite Hu in Hr. discriminate.
  - exfalso.
    assert (Hu : scheme_end (c_str URL) = Undefined)
      by (apply scheme_end_Undefined; auto).
    unfold parseURL in Hr. rewrite Hu in Hr. discriminate.
Qed.

Lemma parseURL_record_needs_boundary_witness :
  In ":" #"no-slashes:here" ∨ (In "/" #"no-slashes:here" ∧ "n" ≠ "/").
Proof.
  apply (parseURL_record_needs_boundary #"no-slashes:here"
           (ParseURL_error LUrlParserError_NoDoubleSlash)).
  reflexivity.
Defined.

(** X9.  On an input that has a scheme candidate (a [':'], or a ['/']
    that is not its first character), an exception leaves [parseURL] only
    from the decoding of a query value: it is one of the two
    [std::invalid_argument] of [urlDecode], and the input then holds a
    ['?'] and a ['%'].  Such an input without ['%'] never makes [parseURL]
    throw. *)
Theorem parseURL_throws_only_on_percent (URL : std_string) (cand : list ascii)
    (e : exception) :
  scheme_candidate (c_str URL) cand →
  parseURL URL = Thrown e →
  (e = invalid_argument "Invalid URL encoding" ∨ e = invalid_argument "stoi")
  ∧ In "?" URL ∧ In "%" URL.
Proof.
  intros Hcand Ht.
  apply scheme_candidate_end in Hcand. destruct Hcand as [He _].
  destruct (parseURL_after_scheme_end _ _ He)
    as [[r Hr] | (e' & Hr & Hk & H1 & H2)]; [congruence|].
  assert (e' = e) by congruence. subst e'.
  auto using c_str_In.
Qed.

Lemma parseURL_throws_only_on_percent_witness :
  parseURL #"http://h/p?a=%4" = Thrown (invalid_argument "Invalid URL encoding")
  ∧ In "?" #"http://h/p?a=%4" ∧ In "%" #"http://h/p?a=%4".
Proof.
  split; [reflexivity|].
  apply (parseURL_throws_only_on_percent #"http://h/p?a=%4" #"http"
           (invalid_argument "Invalid URL encoding")).
  - left. split; [simpl; intuition discriminate | eexists; reflexivity].
  - reflexivity.
Defined.

(** ** Parsing what was written from parts *)

Lemma none_of_In (cs : list ascii) (s : std_string) :
  none_of cs s = true → ∀ c, In c cs → ¬ In c s.
Proof.
  unfold none_of. rewrite forallb_forall. intros H c Hc Hs.
  specialize (H c Hs). apply negb_true_iff in H.
  assert (existsb (Ascii.eqb c) cs = true); [|congruence].
  apply existsb_exists. exists c. split; [exact Hc | apply Ascii.eqb_refl].
Qed.

Lemma none_of_weaken (cs cs' : list ascii) (s : std_string) :
  (∀ c, In c cs' → In c cs) → none_of cs s = true → none_of cs' s = true.
Proof.
  unfold none_of. rewrite !forallb_forall. intros Hsub H c Hc.
  specialize (H c Hc). apply negb_true_iff in H. apply negb_true_iff.
  destruct (existsb (Ascii.eqb c) cs') eqn:He; [|reflexivity].
  apply existsb_exists in He. destruct He as (x & Hx & Hcx).
  rewrite <- H. symmetry. apply existsb_exists. exists x. auto.
Qed.

Lemma scan_app_stop (stop : ascii → bool) (w rest : list ascii) :
  (∀ c, In c w → stop c = false) →
  rest = [] ∨ stop (deref rest) = true →
  scan stop (w ++ rest) = rest.
Proof.
  intros Hw Hrest. induction w as [|c w IH]; simpl.
  - destruct rest as [|x rest]; [reflexivity|]. simpl.
    destruct Hrest as [Hr|Hr]; [discriminate|]. simpl in Hr. rewrite Hr.
    reflexivity.
  - rewrite (Hw c) by (left; reflexivity). apply IH.
    intros x Hx. apply Hw. right. exact Hx.
Qed.

Lemma host_end_plain (w rest : list ascii) :
  (∀ c, In c w → c ≠ ":" ∧ c ≠ "/") →
  rest = [] ∨ deref rest = ":" ∨ deref rest = "/" →
  host_end false (w ++ rest) = rest.
Proof.
  intros Hw Hrest. induction w as [|c w IH]; simpl.
  - destruct rest as [|x rest]; [reflexivity|]. simpl.
    destruct Hrest as [Hr|[Hr|Hr]]; [discriminate| |]; simpl in Hr; subst x;
      reflexivity.
  - destruct (Hw c (or_introl eq_refl)) as [H1 H2].
    apply char_eqb_false in H1, H2. rewrite H1, H2. simpl. apply IH.
    intros x Hx. apply Hw. right. exact Hx.
Qed.

Lemma parse_query_nil : parse_query [] = Returned ∅.
Proof. reflexivity. Qed.

Lemma fragment_read (f : option std_string) :
  (if (deref (fragment_text f) =? "#")%char
   then between (next (fragment_text f))
          (scan (λ _, false) (next (fragment_text f)))
   else []) = default [] f.
Proof.
  destruct f as [frag|]; simpl; [|reflexivity].
  rewrite scan_to_end. apply between_nil.
Qed.

Lemma fragment_text_stop (f : option std_string) (stop : ascii → bool) :
  stop "#" = true → fragment_text f = [] ∨ stop (deref (fragment_text f)) = true.
Proof. destruct f; simpl; auto. Qed.

(** Lines 233-286 on a written tail. *)
Lemma read_path_written scheme u pw h po
    (path : std_string) (q f : option std_string) :
  none_of ["#"; "?"; NUL] path = true →
  none_of ["#"; NUL] (default [] q) = true →
  read_path scheme u pw h po (path ++ query_text q ++ fragment_text f)
  = (λ m, {| errorCode_ := LUrlParserError_Ok; scheme_ := scheme;
             userName_ := u; password_ := pw; host_ := h; port_ := po;
             path_ := path; query_ := default [] q;
             url_parameters_ := m; fragment_ := default [] f |})
    <$> parse_query (default [] q).
Proof.
  intros Hpath Hq. unfold read_path.
  assert (Hstop1 : ∀ c, In c path → (c =? "#")%char || (c =? "?")%char = false).
  { intros c Hc. apply orb_false_iff. split; apply char_eqb_false; intros ->;
      apply (none_of_In _ _ Hpath) in Hc; simpl; auto. }
  assert (Hrest : query_text q ++ fragment_text f = []
                  ∨ (deref (query_text q ++ fragment_text f) =? "#")%char
                    || (deref (query_text q ++ fragment_text f) =? "?")%char
                    = true).
  { destruct q as [query|]; simpl; [auto|]. destruct f; simpl; auto. }
  rewrite (scan_app_stop _ path _ Hstop1 Hrest), between_app.
  destruct q as [query|]; simpl query_text; simpl default.
  - change (deref (("?" :: query) ++ fragment_text f) =? "?")%char with true.
    cbn iota.
    change (next (("?" :: query) ++ fragment_text f))
      with (query ++ fragment_text f).
    assert (Hstop2 : ∀ c, In c query → (c =? "#")%char = false).
    { intros c Hc. apply char_eqb_false. intros ->.
      apply (none_of_In _ _ Hq) in Hc; simpl; auto. }
    rewrite (scan_app_stop _ query _ Hstop2
               (fragment_text_stop f _ eq_refl)), between_app.
    destruct (parse_query query) as [m| |]; simpl; try reflexivity.
    rewrite fragment_read. reflexivity.
  - simpl app.
    assert (Hd : (deref (fragment_text f) =? "?")%char = false)
      by (destruct f; reflexivity).
    rewrite Hd. simpl. rewrite fragment_read. reflexivity.
Qed.

Lemma port_tail_start (po : option std_string)
    (t : option (std_string * option std_string * option std_string)) :
  port_text po ++ tail_text t = []
  ∨ deref (port_text po ++ tail_text t) = ":"
  ∨ deref (port_text po ++ tail_text t) = "/".
Proof. destruct po; simpl; auto. destruct t as [[[path q] f]|]; simpl; auto. Qed.

Lemma tail_start (t : option (std_string * option std_string * option std_string)) :
  tail_text t = [] ∨ deref (tail_text t) = "/".
Proof. destruct t as [[[path q] f]|]; simpl; auto. Qed.

(** Lines 183-199 on a written host. *)
Lemma host_written (h : host_form) (rest : list ascii) :
  host_writable h = true →
  rest = [] ∨ deref rest = ":" ∨ deref rest = "/" →
  host_end (deref (host_text h ++ rest) =? "[")%char (host_text h ++ rest)
  = rest.
Proof.
  intros Hh Hrest. destruct h as [name|literal]; simpl in Hh |- *.
  - apply andb_true_iff in Hh. destruct Hh as [Hname Hb].
    assert (Hd : (deref (name ++ rest) =? "[")%char = false).
    { destruct name as [|c name]; simpl in *.
      - destruct Hrest as [->|[Hr|Hr]]; [reflexivity| |]; rewrite Hr;
          reflexivity.
      - apply negb_true_iff in Hb. exact Hb. }
    rewrite Hd. apply host_end_plain; [|exact Hrest].
    intros c Hc. split; intros ->;
      apply (none_of_In _ _ Hname) in Hc; simpl; auto.
  - rewrite <- app_assoc. simpl.
    apply (host_end_bracket ("[" :: literal) rest).
    simpl. intros [H|H]; [discriminate|].
    apply (none_of_In _ _ Hh) in H; simpl; auto.
Qed.

(** Lines 183-231 on a written host, port and tail. *)
Lemma read_host_written scheme u pw (h : host_form) (po : option std_string)
    (t : option (std_string * option std_string * option std_string)) :
  host_writable h = true →
  none_of ["/"; NUL] (default [] po) = true →
  tail_writable t = true →
  read_host scheme u pw (host_text h ++ port_text po ++ tail_text t)
  = (λ m, {| errorCode_ := LUrlParserError_Ok; scheme_ := scheme;
             userName_ := u; password_ := pw; host_ := host_text h;
             port_ := default [] po;
             path_ := match t with Some (path, _, _) => path | None => [] end;
             query_ := match t with
                       | Some (_, Some query, _) => query
                       | _ => []
                       end;
             url_parameters_ := m;
             fragment_ := match t with
                          | Some (_, _, Some fragment) => fragment
                          | _ => []
                          end |})
    <$> parse_query match t with
                    | Some (_, Some query, _) => query
                    | _ => []
                    end.
Proof.
  intros Hh Hpo Ht. unfold read_host.
  rewrite (host_written h _ Hh (port_tail_start po t)), between_app.
  assert (Hport :
    (if (deref (port_text po ++ tail_text t) =? ":")%char
     then (between (next (port_text po ++ tail_text t))
             (scan (λ c, (c =? "/")%char) (next (port_text po ++ tail_text t))),
           scan (λ c, (c =? "/")%char) (next (port_text po ++ tail_text t)))
     else ([], port_text po ++ tail_text t))
    = (default [] po, tail_text t)).
  { destruct po as [port|]; simpl.
    - assert (Hstop : ∀ c, In c port → (c =? "/")%char = false).
      { intros c Hc. apply char_eqb_false. intros ->.
        apply (none_of_In _ _ Hpo) in Hc; simpl; auto. }
      assert (Hrest : tail_text t = [] ∨ (deref (tail_text t) =? "/")%char = true).
      { destruct (tail_start t) as [H|H]; [auto | right; rewrite H; reflexivity]. }
      rewrite (scan_app_stop _ port _ Hstop Hrest), between_app. reflexivity.
    - destruct t as [[[path q] f]|]; reflexivity. }
  rewrite Hport. clear Hport.
  destruct t as [[[path q] f]|]; simpl tail_text.
  - change (deref ("/" :: path ++ query_text q ++ fragment_text f) =? NUL)%char
      with false.
    change (negb (deref ("/" :: path ++ query_text q ++ fragment_text f) =? "/")%char)
      with false.
    cbn iota.
    change (next ("/" :: path ++ query_text q ++ fragment_text f))
      with (path ++ query_text q ++ fragment_text f).
    simpl in Ht. apply andb_true_iff in Ht. destruct Ht as [Ht Hf].
    apply andb_true_iff in Ht. destruct Ht as [Hpath Hq].
    rewrite (read_path_written _ _ _ _ _ path q f Hpath Hq).
    destruct q as [query|], f as [fragment|]; reflexivity.
  - reflexivity.
Qed.

Lemma has_user_name_without_at (w rest : list ascii) :
  (∀ c, In c w → c ≠ "@") → rest = [] ∨ deref rest = "/" →
  has_user_name (w ++ rest) = false.
Proof.
  intros Hw Hrest. induction w as [|c w IH]; simpl.
  - destruct Hrest as [->|Hr]; [reflexivity|].
    apply deref_cons in Hr; [|discriminate]. rewrite Hr. reflexivity.
  - assert (Hc : (c =? "@")%char = false)
      by (apply char_eqb_false; apply Hw; left; reflexivity).
    rewrite Hc. destruct (c =? "/")%char; [reflexivity|].
    apply IH. intros x Hx. apply Hw. right. exact Hx.
Qed.

Lemma has_user_name_with_at (w rest : list ascii) :
  (∀ c, In c w → c ≠ "@" ∧ c ≠ "/") →
  has_user_name (w ++ "@" :: rest) = true.
Proof.
  intros Hw. induction w as [|c w IH]; simpl; [reflexivity|].
  destruct (Hw c (or_introl eq_refl)) as [H1 H2].
  apply char_eqb_false in H1, H2. rewrite H1, H2.
  apply IH. intros x Hx. apply Hw. right. exact Hx.
Qed.

(** Lines 151-181 on written credentials. *)
Lemma read_credentials_written (user : std_string)
    (opw : option std_string) (rest : list ascii) :
  none_of [":"; "@"; "/"; NUL] user = true →
  none_of ["@"; "/"; NUL] (default [] opw) = true →
  read_credentials (credentials_text (Some (user, opw)) ++ rest)
  = inr (user, default [] opw, rest).
Proof.
  intros Hu Hpw. unfold read_credentials.
  assert (Hstop : ∀ c, In c user → (c =? ":")%char || (c =? "@")%char = false).
  { intros c Hc. apply orb_false_iff. split; apply char_eqb_false; intros ->;
      apply (none_of_In _ _ Hu) in Hc; simpl; auto. }
  destruct opw as [pw|]; simpl default.
  - assert (E : credentials_text (Some (user, Some pw)) ++ rest
                = user ++ ":" :: pw ++ "@" :: rest)
      by (simpl; repeat (rewrite <- app_assoc; simpl); reflexivity).
    rewrite E. clear E.
    rewrite (scan_app_stop _ user (":" :: pw ++ "@" :: rest) Hstop)
      by (right; reflexivity).
    rewrite between_app. simpl deref. simpl next. cbn iota.
    assert (Hstop2 : ∀ c, In c pw → (c =? "@")%char = false).
    { intros c Hc. apply char_eqb_false. intros ->.
      apply (none_of_In _ _ Hpw) in Hc; simpl; auto. }
    rewrite (scan_app_stop _ pw ("@" :: rest) Hstop2) by (right; reflexivity).
    rewrite between_app. reflexivity.
  - assert (E : credentials_text (Some (user, None)) ++ rest
                = user ++ "@" :: rest)
      by (simpl; rewrite <- app_assoc; reflexivity).
    rewrite E. clear E.
    rewrite (scan_app_stop _ user ("@" :: rest) Hstop) by (right; reflexivity).
    rewrite between_app. reflexivity.
Qed.

Lemma c_str_id (s : std_string) : ¬ In NUL s → c_str s = s.
Proof.
  induction s as [|c s IH]; simpl; intros Hn; [reflexivity|].
  destruct (c =? NUL)%char eqn:Hc; [char_cases; tauto|].
  rewrite IH by tauto. reflexivity.
Qed.

Lemma isSchemeValid_plain (sch : std_string) (c : ascii) :
  isSchemeValid sch = true → scheme_char c = false → ¬ In c sch.
Proof.
  intros Hv Hc Hin. rewrite isSchemeValid_forall in Hv.
  rewrite (Hv c Hin) in Hc. discriminate.
Qed.

Lemma credentials_no_NUL (u : url_parts) :
  credentials_writable u = true →
  ¬ In NUL (credentials_text (part_credentials u)).
Proof.
  unfold credentials_writable.
  destruct (part_credentials u) as [[user [pw|]]|]; simpl; [| |tauto].
  - intros H. apply andb_true_iff in H. destruct H as [Hu Hp].
    rewrite in_app_iff. simpl. rewrite in_app_iff. simpl.
    pose proof (none_of_In _ _ Hu NUL). pose proof (none_of_In _ _ Hp NUL).
    simpl in *. intuition discriminate.
  - intros Hu. rewrite in_app_iff. simpl.
    pose proof (none_of_In _ _ Hu NUL). simpl in *. intuition discriminate.
Qed.

Lemma host_no_NUL (h : host_form) :
  host_writable h = true → ¬ In NUL (host_text h).
Proof.
  destruct h as [name|literal]; simpl.
  - intros H. apply andb_true_iff in H. destruct H as [H _].
    pose proof (none_of_In _ _ H NUL). simpl in *. tauto.
  - intros H. rewrite in_app_iff. simpl.
    pose proof (none_of_In _ _ H NUL). simpl in *. intuition discriminate.
Qed.

Lemma port_no_NUL (po : option std_string) :
  none_of ["/"; NUL] (default [] po) = true → ¬ In NUL (port_text po).
Proof.
  destruct po as [port|]; simpl; [|tauto]. intros H.
  pose proof (none_of_In _ _ H NUL). simpl in *. intuition discriminate.
Qed.

Lemma tail_no_NUL (t : option (std_string * option std_string * option std_string)) :
  tail_writable t = true → ¬ In NUL (tail_text t).
Proof.
  destruct t as [[[path q] f]|]; simpl; [|tauto]. intros H.
  apply andb_true_iff in H. destruct H as [H Hf].
  apply andb_true_iff in H. destruct H as [Hp Hq].
  pose proof (none_of_In _ _ Hp NUL) as H1.
  pose proof (none_of_In _ _ Hq NUL) as H2.
  pose proof (none_of_In _ _ Hf NUL) as H3.
  rewrite !in_app_iff.
  destruct q as [query|], f as [fragment|]; simpl in *; intuition discriminate.
Qed.

(** Lines 130-181 on written credentials, host, port and tail. *)
Lemma read_authority_written scheme (u : url_parts) :
  credentials_writable u = true →
  read_authority scheme
    (credentials_text (part_credentials u) ++ host_text (part_host u)
     ++ port_text (part_port u) ++ tail_text (part_tail u))
  = read_host scheme
      match part_credentials u with Some (user, _) => user | None => [] end
      match part_credentials u with
      | Some (_, Some password) => password
      | _ => []
      end
      (host_text (part_host u) ++ port_text (part_port u)
       ++ tail_text (part_tail u)).
Proof.
  unfold credentials_writable, read_authority.
  set (rest := host_text (part_host u) ++ port_text (part_port u)
               ++ tail_text (part_tail u)).
  destruct (part_credentials u) as [[user opw]|].
  - intros Hc.
    assert (Hu : none_of [":"; "@"; "/"; NUL] user = true
                 ∧ none_of ["@"; "/"; NUL] (default [] opw) = true).
    { destruct opw; simpl; [apply andb_true_iff; exact Hc | auto]. }
    destruct Hu as [Hu Hpw].
    assert (Hlook : has_user_name (credentials_text (Some (user, opw)) ++ rest)
                    = true).
    { destruct opw as [pw|]; simpl credentials_text.
      - replace ((user ++ ":" :: pw ++ ["@"]) ++ rest)
          with ((user ++ ":" :: pw) ++ "@" :: rest)
          by (repeat (rewrite <- app_assoc; simpl); reflexivity).
        apply has_user_name_with_at. intros c Hin.
        apply in_app_or in Hin. simpl in Hin.
        pose proof (none_of_In _ _ Hu c) as H1.
        pose proof (none_of_In _ _ Hpw c) as H2. simpl in H1, H2.
        split; intros ->; intuition discriminate.
      - rewrite <- app_assoc. simpl.
        apply has_user_name_with_at. intros c Hin.
        pose proof (none_of_In _ _ Hu c) as H1. simpl in H1.
        split; intros ->; intuition discriminate. }
    rewrite Hlook, (read_credentials_written user opw rest Hu Hpw).
    destruct opw; reflexivity.
  - intros Hc. apply andb_true_iff in Hc. destruct Hc as [Hh Hp].
    simpl credentials_text. simpl app. unfold rest.
    rewrite app_assoc.
    rewrite has_user_name_without_at; [reflexivity | | apply tail_start].
    intros c Hin. apply in_app_or in Hin. intros ->.
    destruct Hin as [Hin|Hin];
      [apply (none_of_In _ _ Hh) in Hin | apply (none_of_In _ _ Hp) in Hin];
      simpl; auto.
Qed.

Lemma parseURL_written (u : url_parts) :
  writable u = true →
  parseURL (write_url u) = parsed_parts u <$> parse_query (part_query u).
Proof.
  unfold writable. intros H.
  apply andb_true_iff in H. destruct H as [H Ht].
  apply andb_true_iff in H. destruct H as [H Hpo].
  apply andb_true_iff in H. destruct H as [H Hh].
  apply andb_true_iff in H. destruct H as [Hs Hc].
  assert (Hnul : ¬ In NUL (write_url u)).
  { unfold write_url. rewrite in_app_iff. simpl. rewrite !in_app_iff.
    pose proof (isSchemeValid_plain _ NUL Hs eq_refl).
    pose proof (credentials_no_NUL u Hc). pose proof (host_no_NUL _ Hh).
    pose proof (port_no_NUL _ Hpo). pose proof (tail_no_NUL _ Ht).
    intuition discriminate. }
  assert (Hcand : scheme_candidate (c_str (write_url u)) (part_scheme u)).
  { rewrite (c_str_id _ Hnul). left.
    split; [apply (isSchemeValid_plain _ ":" Hs eq_refl)|].
    eexists. reflexivity. }
  apply scheme_candidate_end in Hcand. destruct Hcand as [Hend Hfirst].
  rewrite (parseURL_from_scheme_end _ _ Hend), Hfirst, Hs.
  rewrite (c_str_id _ Hnul). unfold write_url.
  change (part_scheme u ++ ":" :: "/" :: "/" ::
            credentials_text (part_credentials u) ++ host_text (part_host u)
            ++ port_text (part_port u) ++ tail_text (part_tail u))
    with (part_scheme u ++ [":"] ++ "/" :: "/" ::
            credentials_text (part_credentials u) ++ host_text (part_host u)
            ++ port_text (part_port u) ++ tail_text (part_tail u)).
  rewrite app_assoc.
  replace (length (part_scheme u) + 1)%nat
    with (length (part_scheme u ++ [":"])) by (rewrite length_app; reflexivity).
  rewrite drop_app_length. simpl negb. cbv zeta. simpl deref. simpl next.
  cbn iota.
  rewrite (read_authority_written _ u Hc).
  rewrite (read_host_written _ _ _ _ _ _ Hh Hpo Ht).
  reflexivity.
Qed.

(** X10.  Parsing gives back what was written.  From a scheme of scheme
    characters, optional credentials, a plain or bracketed host, an
    optional port and an optional tail of path, query and fragment, each
    free of the delimiters that would end it early, write the URL with
    ["://"], ['@'], [':'], ['/'], ['?'] and ['#'].  [parseURL] returns
    exactly those parts, the scheme lower-cased, with the parameters
    [parse_query] makes of the query, or throws where the query does. *)
Theorem parseURL_write_url (u : url_parts) :
  writable u = true →
  parseURL (write_url u) = parsed_parts u <$> parse_query (part_query u).
Proof. apply parseURL_written. Qed.

Lemma parseURL_write_url_witness :
  parseURL #"HTTPS://alice:s3cret@[2001:db8::1]:8443/a/b?q=x+y&r#top"
  = Returned
      {| errorCode_ := LUrlParserError_Ok; scheme_ := #"https";
         userName_ := #"alice"; password_ := #"s3cret";
         host_ := #"[2001:db8::1]"; port_ := #"8443"; path_ := #"a/b";
         query_ := #"q=x+y&r";
         url_parameters_ := <[ #"r" := #"x y"]> (<[ #"q" := #"x y"]> ∅);
         fragment_ := #"top" |}.
Proof.
  etransitivity;
    [apply (parseURL_write_url
              {| part_scheme := #"HTTPS";
                 part_credentials := Some (#"alice", Some #"s3cret");
                 part_host := Bracketed #"2001:db8::1";
                 part_port := Some #"8443";
                 part_tail := Some (#"a/b", Some #"q=x+y&r", Some #"top") |});
     reflexivity
    | reflexivity].
Defined.

(** ** The errors [NoDoubleSlash] and [NoSlash] (lines 126-127, 226-229) *)

(** X11.  After a valid scheme candidate and its boundary character,
    [parseURL] returns [NoDoubleSlash] exactly when the text that follows
    does not begin with ["//"]. *)
Theorem parseURL_NoDoubleSlash_iff (URL : std_string) (cand : list ascii)
    (b : ascii) (rest : list ascii) :
  scheme_candidate (c_str URL) cand →
  isSchemeValid cand = true →
  c_str URL = cand ++ b :: rest →
  (parseURL URL = Returned (ParseURL_error LUrlParserError_NoDoubleSlash)
   ↔ ¬ ∃ rest', rest = "/" :: "/" :: rest').
Proof.
  intros Hcand Hvalid Hs.
  apply scheme_candidate_end in Hcand. destruct Hcand as [Hend Hfirst].
  rewrite (parseURL_from_scheme_end _ _ Hend), Hfirst, Hvalid.
  assert (Hskip : skipn (length cand + 1) (c_str URL) = rest).
  { rewrite Hs. change (b :: rest) with ([b] ++ rest). rewrite app_assoc.
    replace (length cand + 1)%nat with (length (cand ++ [b]))
      by (rewrite length_app; reflexivity).
    apply drop_app_length. }
  rewrite Hskip. simpl negb. cbv zeta. cbn iota.
  destruct (deref rest =? "/")%char eqn:H1; simpl negb; cbn iota.
  - destruct (deref (next rest) =? "/")%char eqn:H2; simpl negb; cbn iota.
    + at_char H1. at_char H2. split.
      * intros Hr. apply read_authority_shape in Hr.
        destruct Hr as [Hr|Hr]; discriminate.
      * intros Hn. exfalso. apply Hn. exists (next (next rest)). congruence.
    + split; [|reflexivity]. intros _ [rest' ->]. discriminate.
  - split; [|reflexivity]. intros _ [rest' ->]. discriminate.
Qed.

Lemma parseURL_NoDoubleSlash_iff_witness :
  parseURL #"mailto:someone@example.com"
  = Returned (ParseURL_error LUrlParserError_NoDoubleSlash).
Proof.
  apply (parseURL_NoDoubleSlash_iff #"mailto:someone@example.com"
           #"mailto" ":" #"someone@example.com").
  - left. split; [simpl; intuition discriminate | eexists; reflexivity].
  - reflexivity.
  - reflexivity.
  - intros [rest' H]. discriminate.
Defined.

Lemma host_end_plain_stops (p : list ascii) :
  host_end false p = []
  ∨ deref (host_end false p) = ":" ∨ deref (host_end false p) = "/".
Proof.
  induction p as [|c p IH]; simpl; [auto|].
  destruct (c =? ":")%char eqn:H1; simpl; [char_cases; auto|].
  destruct (c =? "/")%char eqn:H2; simpl; [char_cases; auto | exact IH].
Qed.

Lemma host_end_bracket_found (p q : list ascii) :
  host_end true p = q → q ≠ [] →
  ∃ w, p = w ++ "]" :: q ∧ ¬ In "]" w.
Proof.
  revert q. induction p as [|c p IH]; intros q; simpl; [congruence|].
  destruct (c =? "]")%char eqn:Hc.
  - intros <- _. char_cases. subst c. exists []. auto.
  - intros Hq Hne. destruct (IH q Hq Hne) as (w & -> & Hw).
    exists (c :: w). char_cases. split; [reflexivity|].
    intros [H|H]; auto.
Qed.

Lemma read_host_NoSlash scheme u pw p :
  read_host scheme u pw p = Returned (ParseURL_error LUrlParserError_NoSlash) →
  ∃ literal c after,
    p = "[" :: literal ++ "]" :: c :: after
    ∧ ¬ In "]" literal ∧ c ≠ ":" ∧ c ≠ "/".
Proof.
  unfold read_host.
  remember (host_end (deref p =? "[")%char p) as q eqn:Eq.
  destruct (deref q =? ":")%char eqn:Hcolon.
  - pose proof (scan_stops (λ c, (c =? "/")%char) (next q)) as Hstop.
    destruct (deref (scan _ (next q)) =? NUL)%char eqn:Hnul;
      [intros [= H]; discriminate|].
    destruct (negb (deref (scan _ (next q)) =? "/")%char) eqn:Hslash.
    + exfalso. destruct Hstop as [Hs|Hs].
      * rewrite Hs in Hnul. discriminate.
      * char_cases. congruence.
    + intros Hr. apply read_path_Ok in Hr. discriminate.
  - destruct (deref q =? NUL)%char eqn:Hnul; [intros [= H]; discriminate|].
    destruct (negb (deref q =? "/")%char) eqn:Hslash;
      [|intros Hr; apply read_path_Ok in Hr; discriminate].
    intros _. char_cases.
    destruct (deref p =? "[")%char eqn:Hb.
    + at_char Hb.
      assert (Hq : q ≠ []) by (intros ->; apply Hnul; reflexivity).
      symmetry in Eq. destruct (host_end_bracket_found _ _ Eq Hq) as (w & Hp & Hw).
      destruct q as [|c after]; [congruence|]. simpl in *.
      destruct w as [|x w].
      * rewrite Hb in Hp. discriminate.
      * rewrite Hb in Hp. simpl in Hp. injection Hp as <- Hp.
        exists w, c, after. rewrite Hb at 1. rewrite Hp. simpl in Hw.
        repeat split; auto.
    + exfalso. subst q.
      destruct (host_end_plain_stops p) as [H|[H|H]].
      * rewrite H in Hnul. auto.
      * auto.
      * auto.
Qed.


(** ** What the members of a returned record cannot hold *)

Lemma between_scan_free (stop : ascii → bool) (p : list ascii) (c : ascii) :
  stop c = true → ¬ In c (between p (scan stop p)).
Proof.
  intros Hc.
  destruct (scan_suffix stop p) as [w [Hp Hw]].
  assert (E : between p (scan stop p) = w)
    by (rewrite Hp at 1; apply between_app).
  rewrite E. rewrite List.Forall_forall in Hw. intros Hin.
  apply Hw in Hin. congruence.
Qed.

Lemma host_end_plain_prefix (p : list ascii) :
  ∃ w, p = w ++ host_end false p ∧ ∀ c, In c w → c ≠ ":" ∧ c ≠ "/".
Proof.
  induction p as [|c p (w & IH & Hw)]; simpl.
  - exists []. split; [reflexivity | intros c []].
  - destruct (c =? ":")%char eqn:H1; simpl;
      [exists []; split; [reflexivity | intros x []]|].
    destruct (c =? "/")%char eqn:H2; simpl;
      [exists []; split; [reflexivity | intros x []]|].
    exists (c :: w). split; [simpl; congruence|].
    char_cases. intros x [<-|Hx]; auto.
Qed.

Lemma between_host_plain (p : list ascii) (c : ascii) :
  c = ":" ∨ c = "/" → ¬ In c (between p (host_end false p)).
Proof.
  intros Hc. destruct (host_end_plain_prefix p) as (w & Hp & Hw).
  assert (E : between p (host_end false p) = w)
    by (rewrite Hp at 1; apply between_app).
  rewrite E. intros Hin. apply Hw in Hin. destruct Hc; tauto.
Qed.

Lemma between_host_bracket (p : list ascii) :
  deref p = "[" → deref (between p (host_end true p)) = "[".
Proof.
  intros Hb. apply deref_cons in Hb; [|discriminate].
  destruct (host_end_suffix true (next p)) as [w Hw].
  assert (Hq : host_end true p = host_end true (next p))
    by (rewrite Hb at 1; reflexivity).
  assert (E : between p (host_end true p) = "[" :: w).
  { rewrite Hq. rewrite Hb at 1. rewrite Hw at 1.
    apply (between_app ("[" :: w)). }
  rewrite E. reflexivity.
Qed.

Lemma read_credentials_delimited p u pw q :
  read_credentials p = inr (u, pw, q) →
  (¬ In ":" u ∧ ¬ In "@" u) ∧ ¬ In "@" pw.
Proof.
  unfold read_credentials.
  set (stop := λ c, (c =? ":")%char || (c =? "@")%char).
  pose proof (between_scan_free stop p ":" eq_refl) as H1.
  pose proof (between_scan_free stop p "@" eq_refl) as H2.
  destruct (deref (scan stop p) =? ":")%char.
  - pose proof (between_scan_free (λ c, (c =? "@")%char)
                  (next (scan stop p)) "@" eq_refl) as H3.
    destruct (negb _); [discriminate|]. intros [= <- <- <-]. auto.
  - destruct (negb _); [discriminate|]. intros [= <- <- <-]. simpl. auto.
Qed.

Lemma read_path_delimited scheme u pw h po p r :
  read_path scheme u pw h po p = Returned r →
  (¬ In "?" (path_ r) ∧ ¬ In "#" (path_ r)) ∧ ¬ In "#" (query_ r).
Proof.
  unfold read_path.
  set (stop := λ c, (c =? "#")%char || (c =? "?")%char).
  pose proof (between_scan_free stop p "?" eq_refl) as H1.
  pose proof (between_scan_free stop p "#" eq_refl) as H2.
  destruct (deref (scan stop p) =? "?")%char; simpl.
  - pose proof (between_scan_free (λ c, (c =? "#")%char)
                  (next (scan stop p)) "#" eq_refl) as H3.
    destruct (parse_query _); simpl; try discriminate.
    intros [= <-]. simpl. auto.
  - intros [= <-]. simpl. auto.
Qed.

Lemma read_host_delimited scheme u pw p r :
  read_host scheme u pw p = Returned r →
  errorCode_ r = LUrlParserError_Ok →
  scheme_ r = scheme ∧ userName_ r = u ∧ password_ r = pw
  ∧ (deref (host_ r) ≠ "[" → ¬ In ":" (host_ r) ∧ ¬ In "/" (host_ r))
  ∧ ¬ In "/" (port_ r)
  ∧ (¬ In "?" (path_ r) ∧ ¬ In "#" (path_ r))
  ∧ ¬ In "#" (query_ r).
Proof.
  unfold read_host.
  assert (Hhost : deref (between p (host_end (deref p =? "[")%char p)) ≠ "[" →
                  ¬ In ":" (between p (host_end (deref p =? "[")%char p))
                  ∧ ¬ In "/" (between p (host_end (deref p =? "[")%char p))).
  { destruct (deref p =? "[")%char eqn:Hb.
    - char_cases. intros H. exfalso. apply H. apply between_host_bracket.
      exact Hb.
    - intros _. split; apply between_host_plain; auto. }
  remember (between p (host_end (deref p =? "[")%char p)) as h eqn:Eh.
  clear Eh.
  remember (host_end (deref p =? "[")%char p) as q eqn:Eq. clear Eq.
  assert (Hfin : ∀ po p', ¬ In "/" po →
            (if (deref p' =? NUL)%char
             then Returned
                    {| errorCode_ := LUrlParserError_Ok; scheme_ := scheme;
                       userName_ := u; password_ := pw; host_ := h;
                       port_ := po; path_ := []; query_ := [];
                       url_parameters_ := ∅; fragment_ := [] |}
             else if negb (deref p' =? "/")%char
                  then Returned (ParseURL_error LUrlParserError_NoSlash)
                  else read_path scheme u pw h po (next p')) = Returned r →
            errorCode_ r = LUrlParserError_Ok →
            scheme_ r = scheme ∧ userName_ r = u ∧ password_ r = pw
            ∧ (deref (host_ r) ≠ "[" → ¬ In ":" (host_ r) ∧ ¬ In "/" (host_ r))
            ∧ ¬ In "/" (port_ r)
            ∧ (¬ In "?" (path_ r) ∧ ¬ In "#" (path_ r))
            ∧ ¬ In "#" (query_ r)).
  { intros po p' Hpo.
    destruct (deref p' =? NUL)%char.
    - intros [= <-] _. simpl. repeat split; auto; tauto.
    - destruct (negb (deref p' =? "/")%char); [intros [= <-]; discriminate|].
      intros Hr _. pose proof (read_path_delimited _ _ _ _ _ _ _ Hr) as Hd.
      apply read_path_spells in Hr.
      destruct Hr as (-> & -> & -> & -> & -> & _). tauto. }
  destruct (deref q =? ":")%char.
  - apply Hfin. apply between_scan_free. reflexivity.
  - apply Hfin. simpl. tauto.
Qed.

Lemma tolower_scheme_char (c : ascii) :
  scheme_char c = true → scheme_char (tolower c) = true.
Proof.
  destruct c as [[] [] [] [] [] [] [] []]; vm_compute; auto.
Qed.

Lemma parseURL_delimited (URL : std_string) (r : ParseURL) :
  parseURL URL = Returned r → fields_delimited r.
Proof.
  intros Hr.
  destruct (parseURL_shape _ _ Hr) as [Hok | [-> | [-> | ->]]];
    try (unfold fields_delimited; simpl; intuition (try discriminate; auto; fail)).
  assert (Hn : ∃ n, scheme_end (c_str URL) = Returned (at_index n)).
  { unfold parseURL in Hr.
    destruct (scheme_end (c_str URL)) as [[|n]| |] eqn:He; simpl in Hr;
      try discriminate; eauto.
    exfalso. eapply scheme_end_not_null; eauto. }
  destruct Hn as [n Hn]. rewrite (parseURL_from_scheme_end _ _ Hn) in Hr.
  destruct (negb (isSchemeValid _)) eqn:Hv;
    [injection Hr as <-; discriminate|].
  cbv zeta in Hr.
  destruct (negb (deref _ =? "/")%char); [injection Hr as <-; discriminate|].
  destruct (negb (deref (next _) =? "/")%char);
    [injection Hr as <-; discriminate|].
  remember (next (next (skipn (n + 1) (c_str URL)))) as p eqn:Ep. clear Ep.
  apply negb_false_iff in Hv. rewrite isSchemeValid_forall in Hv.
  unfold read_authority in Hr.
  assert (Hparts : ∃ u pw p2,
            (¬ In ":" u ∧ ¬ In "@" u) ∧ ¬ In "@" pw
            ∧ read_host (map tolower (firstn n (c_str URL))) u pw p2
              = Returned r).
  { destruct (has_user_name p) eqn:Hu.
    - destruct (read_credentials_at p Hu) as [[[u pw] q] Hc].
      rewrite Hc in Hr. apply read_credentials_delimited in Hc.
      exists u, pw, q. tauto.
    - exists [], [], p. simpl. tauto. }
  destruct Hparts as (u & pw & p2 & Hu & Hpw & Hh).
  destruct (read_host_delimited _ _ _ _ _ Hh Hok)
    as (Hs & Hu' & Hpw' & Hhost & Hport & Hpath & Hquery).
  unfold fields_delimited. rewrite Hs, Hu', Hpw'. repeat split; try tauto.
  - apply in_map_iff in H. destruct H as (x & <- & Hx).
    apply tolower_scheme_char. auto.
  - apply in_map_iff in H. destruct H as (x & <- & Hx).
    apply tolower_not_upper.
Qed.

(** X13.  In every record [parseURL] returns no member holds the
    delimiter that ends it: the scheme is made of lower-case scheme
    characters, the user name has no [':'] and no ['@'], the password no
    ['@'], a host that does not start with ['['] no [':'] and no ['/'],
    the port no ['/'], the path no ['?'] and no ['#'], the query no
    ['#']. *)
Theorem parseURL_fields_delimited (URL : std_string) (r : ParseURL) :
  parseURL URL = Returned r → fields_delimited r.
Proof. apply parseURL_delimited. Qed.

Lemma parseURL_fields_delimited_witness :
  ∃ r, parseURL #"Ftp://joe:pw@files.example.org:2121/pub/x?dl=1#end"
       = Returned r
       ∧ fields_delimited r.
Proof.
  eexists. split; [vm_compute; reflexivity|].
  apply (parseURL_fields_delimited
           #"Ftp://joe:pw@files.example.org:2121/pub/x?dl=1#end").
  vm_compute. reflexivity.
Defined.

(** ** More on the port accessor (lines 72-82) *)

Lemma digit_value_10_isdigit (c : ascii) (d : Z) :
  digit_value 10 c = Some d → isdigit c = true.
Proof.
  unfold digit_value, isdigit, islower, isupper.
  destruct ((48 <=? code c)%nat && (code c <=? 57)%nat); [reflexivity|].
  destruct ((97 <=? code c)%nat && (code c <=? 122)%nat) eqn:H2.
  - apply andb_true_iff in H2. destruct H2 as [H2 _]. apply Nat.leb_le in H2.
    destruct (Z.of_nat (code c) - 87 <? 10)%Z eqn:Hb; [|discriminate].
    apply Z.ltb_lt in Hb. lia.
  - destruct ((65 <=? code c)%nat && (code c <=? 90)%nat) eqn:H3;
      [|discriminate].
    apply andb_true_iff in H3. destruct H3 as [H3 _]. apply Nat.leb_le in H3.
    destruct (Z.of_nat (code c) - 55 <? 10)%Z eqn:Hb; [|discriminate].
    apply Z.ltb_lt in Hb. lia.
Qed.

Lemma isdigit_digit_value_10 (c : ascii) :
  isdigit c = true → ∃ d, digit_value 10 c = Some d.
Proof.
  intros Hd. unfold digit_value. rewrite Hd.
  unfold isdigit in Hd. apply andb_true_iff in Hd. destruct Hd as [H1 H2].
  apply Nat.leb_le in H1, H2.
  replace (Z.of_nat (code c) - 48 <? 10)%Z with true; [eauto|].
  symmetry. apply Z.ltb_lt. lia.
Qed.

Lemma isdigit_plain (c : ascii) :
  isdigit c = true →
  isspace c = false ∧ (c =? "-")%char = false ∧ (c =? "+")%char = false
  ∧ (c =? NUL)%char = false.
Proof.
  destruct c as [[] [] [] [] [] [] [] []]; vm_compute; intros H;
    try discriminate H; auto.
Qed.

(** [atoi] finds no number in a text that starts with something else than
    white space, a sign or a digit. *)
Lemma decimal_value_not_numeric (s : list ascii) :
  s = [] ∨ (isspace (deref s) = false ∧ deref s ≠ "+" ∧ deref s ≠ "-"
            ∧ isdigit (deref s) = false) →
  decimal_value (c_str s) = 0%Z.
Proof.
  intros [-> | (Hsp & Hp & Hm & Hd)]; [reflexivity|].
  destruct s as [|c s]; [reflexivity|]. simpl in Hsp, Hp, Hm, Hd.
  unfold decimal_value. simpl c_str.
  destruct (c =? NUL)%char; [reflexivity|].
  unfold strtol_value. simpl skip_space. rewrite Hsp.
  unfold read_sign. apply char_eqb_false in Hp, Hm. rewrite Hp, Hm.
  assert (Hnone : digit_value 10 c = None).
  { destruct (digit_value 10 c) as [d|] eqn:E; [|reflexivity].
    apply digit_value_10_isdigit in E. congruence. }
  assert (Hs2 : match c :: c_str s with
                | z :: x :: s' =>
                    if (10 =? 16)%Z && (z =? "0")%char
                       && ((x =? "x")%char || (x =? "X")%char)
                       && starts_with_digit 10 s'
                    then s' else c :: c_str s
                | _ => c :: c_str s
                end = c :: c_str s)
    by (destruct (c_str s); reflexivity).
  rewrite Hs2. simpl. rewrite Hnone. reflexivity.
Qed.

(** X14.  [getPort] fails on a record whose port is empty or starts with
    a character that is neither white space, a sign nor a digit: a URL
    without port, or with a port such as ["http"], has no port number. *)
Theorem getPort_not_numeric (this : ParseURL) :
  port_ this = []
  ∨ (isspace (deref (port_ this)) = false ∧ deref (port_ this) ≠ "+"
     ∧ deref (port_ this) ≠ "-" ∧ isdigit (deref (port_ this)) = false) →
  getPort this = Returned None.
Proof.
  intros H. apply decimal_value_not_numeric in H.
  unfold getPort. rewrite atoi_decimal_value by (rewrite H; reflexivity).
  rewrite H. destruct (negb (isValid this)); reflexivity.
Qed.

Lemma getPort_not_numeric_witness :
  ∃ r, parseURL #"http://example.com:http/" = Returned r
       ∧ port_ r = #"http" ∧ getPort r = Returned None.
Proof.
  eexists. split; [vm_compute; reflexivity|]. split; [reflexivity|].
  apply getPort_not_numeric. right. repeat split; discriminate.
Defined.

Lemma digits_app_stop (ds tail : list ascii) (acc : Z) :
  (∀ c, In c ds → isdigit c = true) →
  tail = [] ∨ isdigit (deref tail) = false →
  digits 10 acc (ds ++ tail) = digits 10 acc ds.
Proof.
  intros Hds Htail. revert acc.
  induction ds as [|c ds IH]; intros acc; simpl.
  - destruct tail as [|x tail]; [reflexivity|]. simpl.
    destruct Htail as [Ht|Ht]; [discriminate|]. simpl in Ht.
    destruct (digit_value 10 x) as [d|] eqn:E; [|reflexivity].
    apply digit_value_10_isdigit in E. congruence.
  - destruct (digit_value 10 c); [|reflexivity].
    apply IH. intros x Hx. apply Hds. right. exact Hx.
Qed.

(** The number [atoi] reads from digits does not depend on what follows
    them. *)
Lemma decimal_value_digits_prefix (ds : list ascii) (c : ascii)
    (rest : list ascii) :
  ds ≠ [] → (∀ x, In x ds → isdigit x = true) → isdigit c = false →
  decimal_value (c_str (ds ++ c :: rest)) = decimal_value (c_str ds).
Proof.
  intros Hne Hds Hc.
  assert (Hcs : ∀ t, c_str (ds ++ t) = ds ++ c_str t).
  { intros t. clear Hne. induction ds as [|x ds IH]; [reflexivity|]. simpl.
    destruct (isdigit_plain x (Hds x (or_introl eq_refl))) as (_ & _ & _ & Hn).
    rewrite Hn. rewrite IH; [reflexivity|].
    intros y Hy. apply Hds. right. exact Hy. }
  assert (Hcd : c_str ds = ds ++ []).
  { specialize (Hcs []). rewrite app_nil_r in Hcs at 1. exact Hcs. }
  rewrite (Hcs (c :: rest)), Hcd.
  assert (Hval : ∀ tail, (tail = [] ∨ isdigit (deref tail) = false) →
            decimal_value (ds ++ tail) = digits 10 0 ds).
  { intros tail Htail. destruct ds as [|x ds]; [congruence|].
    destruct (isdigit_plain x (Hds x (or_introl eq_refl))) as (Hsp & Hm & Hp & _).
    destruct (isdigit_digit_value_10 x (Hds x (or_introl eq_refl))) as [d Hd].
    unfold decimal_value, strtol_value. simpl app. simpl skip_space.
    rewrite Hsp. unfold read_sign. rewrite Hm, Hp.
    assert (Hs2 : match x :: ds ++ tail with
                  | z :: y :: s' =>
                      if (10 =? 16)%Z && (z =? "0")%char
                         && ((y =? "x")%char || (y =? "X")%char)
                         && starts_with_digit 10 s'
                      then s' else x :: ds ++ tail
                  | _ => x :: ds ++ tail
                  end = x :: ds ++ tail)
      by (destruct (ds ++ tail); reflexivity).
    rewrite Hs2. unfold starts_with_digit. rewrite Hd. simpl default.
    apply (digits_app_stop (x :: ds) tail 0 Hds Htail). }
  rewrite (Hval (c_str (c :: rest))), (Hval []); [reflexivity | auto |].
  simpl. destruct (c =? NUL)%char; [auto | right; exact Hc].
Qed.

(** X15.  [getPort] reads the leading digits of the port and ignores what
    follows them: two records that are both valid or both not, the port
    of the second being the digits of the first with more text after
    them, have the same port number. *)
Theorem getPort_ignores_suffix (this other : ParseURL) (c : ascii)
    (rest : list ascii) :
  isValid other = isValid this →
  port_ this ≠ [] →
  (∀ x, In x (port_ this) → isdigit x = true) →
  isdigit c = false →
  port_ other = port_ this ++ c :: rest →
  getPort other = getPort this.
Proof.
  intros Hv Hne Hds Hc Hp. unfold getPort, atoi, strtol.
  fold (decimal_value (c_str (port_ other))).
  fold (decimal_value (c_str (port_ this))).
  rewrite Hv, Hp, (decimal_value_digits_prefix _ _ _ Hne Hds Hc).
  reflexivity.
Qed.

Lemma getPort_ignores_suffix_witness :
  ∃ r1 r2, parseURL #"http://h:8080/" = Returned r1
           ∧ parseURL #"http://h:8080abc/" = Returned r2
           ∧ getPort r2 = getPort r1 ∧ getPort r1 = Returned (Some 8080%Z).
Proof.
  eexists. eexists. split; [vm_compute; reflexivity|].
  split; [vm_compute; reflexivity|]. split; [|reflexivity].
  apply (getPort_ignores_suffix _ _ "a" #"bc").
  - reflexivity.
  - discriminate.
  - intros x Hx. simpl in Hx.
    repeat (destruct Hx as [<-|Hx]; [reflexivity|]). destruct Hx.
  - reflexivity.
  - reflexivity.
Defined.

(** ** Edges of the scan *)

Lemma c_str_app_NUL (s t : std_string) : c_str (s ++ NUL :: t) = c_str s.
Proof.
  induction s as [|c s IH]; simpl; [reflexivity|].
  destruct (c =? NUL)%char; [reflexivity|]. rewrite IH. reflexivity.
Qed.

(** X16.  [parseURL] reads its argument as a C string: what follows a NUL
    byte in the input has no effect on the outcome. *)
Theorem parseURL_stops_at_NUL (URL rest : std_string) :
  parseURL (URL ++ NUL :: rest) = parseURL URL.
Proof. unfold parseURL. rewrite c_str_app_NUL. reflexivity. Qed.

Lemma host_end_unclosed (p : list ascii) :
  ¬ In "]" p → host_end true p = [].
Proof.
  induction p as [|c p IH]; simpl; intros Hn; [reflexivity|].
  destruct (c =? "]")%char eqn:Hc; [char_cases; tauto|]. apply IH. tauto.
Qed.

(** X17.  A bracket that is never closed takes the rest of the input:
    when the authority starts with ['['], has no [']'] and no ['@'],
    [parseURL] succeeds with the whole remainder as host, [':'], ['/'],
    ['?'] and ['#'] included, and every other member but the scheme
    empty. *)
Theorem parseURL_unclosed_bracket (URL : std_string) (cand : list ascii)
    (b : ascii) (rest : list ascii) :
  scheme_candidate (c_str URL) cand →
  isSchemeValid cand = true →
  c_str URL = cand ++ b :: "/" :: "/" :: "[" :: rest →
  ¬ In "]" rest → ¬ In "@" rest →
  parseURL URL
  = Returned {| errorCode_ := LUrlParserError_Ok;
                scheme_ := map tolower cand; userName_ := [];
                password_ := []; host_ := "[" :: rest; port_ := [];
                path_ := []; query_ := []; url_parameters_ := ∅;
                fragment_ := [] |}.
Proof.
  intros Hcand Hvalid Hs Hclose Hat.
  apply scheme_candidate_end in Hcand. destruct Hcand as [Hend Hfirst].
  rewrite (parseURL_from_scheme_end _ _ Hend), Hfirst, Hvalid.
  assert (Hskip : skipn (length cand + 1) (c_str URL)
                  = "/" :: "/" :: "[" :: rest).
  { rewrite Hs.
    change (b :: "/" :: "/" :: "[" :: rest)
      with ([b] ++ "/" :: "/" :: "[" :: rest).
    rewrite app_assoc.
    replace (length cand + 1)%nat with (length (cand ++ [b]))
      by (rewrite length_app; reflexivity).
    apply drop_app_length. }
  rewrite Hskip. simpl negb. cbv zeta. simpl deref. simpl next. cbn iota.
  unfold read_authority.
  assert (Hlook : has_user_name ("[" :: rest) = false).
  { replace ("[" :: rest) with (("[" :: rest) ++ []) by apply app_nil_r.
    apply has_user_name_without_at; [|auto].
    intros c [<-|Hc] E; [discriminate | subst c; auto]. }
  rewrite Hlook. unfold read_host.
  change (deref ("[" :: rest) =? "[")%char with true.
  assert (Hhost : host_end true ("[" :: rest) = []).
  { apply host_end_unclosed. intros [H|H]; [discriminate | auto]. }
  rewrite Hhost.
  change (deref [] =? ":")%char with false. cbn iota.
  change (deref [] =? NUL)%char with true. cbn iota.
  rewrite between_nil. reflexivity.
Qed.

Lemma parseURL_unclosed_bracket_witness :
  ∃ r, parseURL #"http://[::1:8080/index.html?x=1#top" = Returned r
       ∧ host_ r = #"[::1:8080/index.html?x=1#top" ∧ port_ r = []
       ∧ path_ r = [].
Proof.
  eexists. split.
  - apply (parseURL_unclosed_bracket #"http://[::1:8080/index.html?x=1#top"
             #"http" ":" #"::1:8080/index.html?x=1#top").
    + left. split; [simpl; intuition discriminate | eexists; reflexivity].
    + reflexivity.
    + reflexivity.
    + simpl. intuition discriminate.
    + simpl. intuition discriminate.
  - repeat split.
Defined.

(** ** Parsing again what a parse gave *)

Lemma none_of_intro (cs : list ascii) (s : std_string) :
  (∀ c, In c cs → ¬ In c s) → none_of cs s = true.
Proof.
  intros H. unfold none_of. apply forallb_forall. intros c Hc.
  apply negb_true_iff. destruct (existsb (Ascii.eqb c) cs) eqn:He; [|reflexivity].
  apply existsb_exists in He. destruct He as (x & Hx & Hcx).
  apply Ascii.eqb_eq in Hcx. subst x. destruct (H c Hx Hc).
Qed.

Lemma map_tolower_lower (s : std_string) :
  (∀ c, In c s → isupper c = false) → map tolower s = s.
Proof.
  induction s as [|c s IH]; simpl; intros H; [reflexivity|].
  unfold tolower at 1. rewrite (H c (or_introl eq_refl)).
  rewrite IH; [reflexivity|]. intros x Hx. apply H. right. exact Hx.
Qed.

(** X18.  Absent and empty passwords are one: a URL written with a user
    name and no password, and the same URL written with the user name, a
    [':'] and an empty password, parse to the same outcome. *)
Theorem parseURL_empty_password (u : url_parts) (user : std_string) :
  part_credentials u = Some (user, None) →
  writable u = true →
  parseURL
    (write_url {| part_scheme := part_scheme u;
                  part_credentials := Some (user, Some []);
                  part_host := part_host u; part_port := part_port u;
                  part_tail := part_tail u |})
  = parseURL (write_url u).
Proof.
  intros Hc Hw.
  rewrite (parseURL_written u Hw).
  rewrite parseURL_written.
  - unfold parsed_parts, part_query. simpl. rewrite Hc. reflexivity.
  - revert Hw. unfold writable, credentials_writable. simpl. rewrite Hc.
    intros Hw.
    repeat (apply andb_true_iff in Hw; destruct Hw as [Hw ?]).
    repeat (apply andb_true_iff; split); assumption || reflexivity.
Qed.

Lemma parseURL_empty_password_witness :
  parseURL #"http://bob:@example.com/x" = parseURL #"http://bob@example.com/x".
Proof.
  apply (parseURL_empty_password
           {| part_scheme := #"http"; part_credentials := Some (#"bob", None);
              part_host := Plain #"example.com"; part_port := None;
              part_tail := Some (#"x", None, None) |} #"bob");
    reflexivity.
Defined.

Lemma parseURL_host_path_no_NUL (URL : std_string) (r : ParseURL) :
  parseURL URL = Returned r → errorCode_ r = LUrlParserError_Ok →
  ¬ In NUL (host_ r) ∧ ¬ In NUL (path_ r).
Proof.
  intros Hr Hok.
  destruct (parseURL_spells _ _ Hr Hok)
    as (sch & b & cred & pp & tl & Hs & _ & _ & _ & _ & Htl).
  pose proof (c_str_no_NUL URL) as Hn. rewrite Hs in Hn.
  rewrite in_app_iff in Hn. simpl in Hn. rewrite !in_app_iff in Hn.
  split; [tauto|].
  destruct Htl as [(_ & -> & _) | (qp & fp & -> & _)]; [simpl; tauto|].
  simpl in Hn. rewrite !in_app_iff in Hn. tauto.
Qed.

(** X19.  Parsing again the scheme, host and path of a successful parse
    gives them back: for a host without ['@'] that is plain or a closed
    bracket, [parseURL] on ["scheme://host/path"] written from the record
    succeeds with the same scheme, host and path and nothing else. *)
Theorem parseURL_reparse (URL : std_string) (r : ParseURL) :
  parseURL URL = Returned r →
  errorCode_ r = LUrlParserError_Ok →
  ¬ In "@" (host_ r) →
  (deref (host_ r) = "[" →
   ∃ literal, host_ r = "[" :: literal ++ ["]"] ∧ ¬ In "]" literal) →
  parseURL (scheme_ r ++ ":" :: "/" :: "/" :: host_ r ++ "/" :: path_ r)
  = Returned {| errorCode_ := LUrlParserError_Ok; scheme_ := scheme_ r;
                userName_ := []; password_ := []; host_ := host_ r;
                port_ := []; path_ := path_ r; query_ := [];
                url_parameters_ := ∅; fragment_ := [] |}.
Proof.
  intros Hr Hok Hat Hbr.
  destruct (parseURL_delimited _ _ Hr)
    as (Hsch & _ & _ & Hhost & _ & [Hp1 Hp2] & _).
  destruct (parseURL_host_path_no_NUL _ _ Hr Hok) as [Hhn Hpn].
  assert (Hh : ∃ h, host_text h = host_ r ∧ host_writable h = true).
  { destruct (ascii_dec (deref (host_ r)) "[") as [Hb|Hb].
    - destruct (Hbr Hb) as (literal & Hl & Hcl). exists (Bracketed literal).
      split; [symmetry; exact Hl|]. simpl. apply none_of_intro.
      intros c [<-|[<-|[]]]; [exact Hcl|].
      rewrite Hl in Hhn. simpl in Hhn. rewrite in_app_iff in Hhn. tauto.
    - exists (Plain (host_ r)). split; [reflexivity|]. simpl.
      apply andb_true_iff. split.
      + apply none_of_intro. destruct (Hhost Hb) as [H1 H2].
        intros c [<-|[<-|[<-|[]]]]; assumption.
      + apply negb_true_iff. apply char_eqb_false. exact Hb. }
  destruct Hh as (h & Hht & Hhw).
  pose (u := {| part_scheme := scheme_ r; part_credentials := None;
                part_host := h; part_port := None;
                part_tail := Some (path_ r, None, None) |}).
  assert (Hw : writable u = true).
  { unfold writable, credentials_writable, tail_writable. simpl.
    repeat (apply andb_true_iff; split); try reflexivity.
    - apply isSchemeValid_forall. intros c Hc. apply Hsch. exact Hc.
    - rewrite Hht. apply none_of_intro. intros c [<-|[]]. exact Hat.
    - exact Hhw.
    - apply none_of_intro. intros c [<-|[<-|[<-|[]]]]; assumption. }
  pose proof (parseURL_written u Hw) as Hparse.
  unfold write_url, parsed_parts, part_query in Hparse. simpl in Hparse.
  rewrite Hht, !app_nil_r in Hparse.
  rewrite map_tolower_lower in Hparse by (intros c Hc; apply Hsch; exact Hc).
  exact Hparse.
Qed.

Lemma parseURL_reparse_witness :
  parseURL #"http://example.com/index.html"
  = Returned {| errorCode_ := LUrlParserError_Ok; scheme_ := #"http";
                userName_ := []; password_ := []; host_ := #"example.com";
                port_ := []; path_ := #"index.html"; query_ := [];
                url_parameters_ := ∅; fragment_ := [] |}.
Proof.
  assert (Hr : ∃ r, parseURL #"HTTP://joe@example.com:81/index.html?a=1#f"
                    = Returned r ∧ scheme_ r = #"http"
                    ∧ host_ r = #"example.com" ∧ path_ r = #"index.html"
                    ∧ errorCode_ r = LUrlParserError_Ok).
  { eexists. split; [vm_compute; reflexivity|]. repeat split. }
  destruct Hr as (r & Hr & Hs & Hh & Hp & Hok).
  pose proof (parseURL_reparse _ r Hr Hok) as H.
  rewrite Hs, Hh, Hp in H. apply H.
  - simpl. intuition discriminate.
  - discriminate.
Defined.

(** ** When [NoSlash] is returned (lines 183-229) *)

Lemma has_user_name_false_inv (p : list ascii) :
  has_user_name p = false → ∀ u t, p = u ++ "@" :: t → In "/" u.
Proof.
  induction p as [|c p IH]; simpl; intros H u t Hp.
  - destruct u; discriminate.
  - destruct (c =? "@")%char eqn:Hat; [discriminate|].
    destruct u as [|x u]; simpl in Hp; injection Hp as Hc Hp.
    + char_cases. congruence.
    + subst x. destruct (c =? "/")%char eqn:Hs; [char_cases; left; auto|].
      right. eapply IH; eauto.
Qed.

Lemma has_user_name_true_first (w t : list ascii) :
  has_user_name (w ++ "@" :: t) = true → ¬ In "@" w → ¬ In "/" w.
Proof.
  induction w as [|c w IH]; simpl; intros H Hat; [tauto|].
  destruct (c =? "@")%char eqn:Hc; [char_cases; tauto|].
  destruct (c =? "/")%char eqn:Hs; [discriminate|]. char_cases.
  intros [Hx|Hx]; [congruence|]. apply IH; auto.
Qed.

Lemma read_host_after_bracket scheme u pw literal c after :
  ¬ In "]" literal → c ≠ ":" → c ≠ "/" → c ≠ NUL →
  read_host scheme u pw ("[" :: literal ++ "]" :: c :: after)
  = Returned (ParseURL_error LUrlParserError_NoSlash).
Proof.
  intros Hl H1 H2 H3. unfold read_host.
  change (deref ("[" :: literal ++ "]" :: c :: after) =? "[")%char with true.
  change ("[" :: literal ++ "]" :: c :: after)
    with (("[" :: literal) ++ "]" :: c :: after).
  rewrite (host_end_bracket ("[" :: literal) (c :: after))
    by (simpl; intros [H|H]; [discriminate | auto]).
  change (deref (c :: after)) with c. apply char_eqb_false in H1, H2, H3.
  rewrite H1. cbn iota. change (deref (c :: after)) with c.
  rewrite H3, H2. reflexivity.
Qed.

(** X12.  [parseURL] returns [NoSlash] exactly after a bracketed host
    that something other than a port or a path follows: the input is a
    valid scheme candidate, its boundary character, ["//"], the
    credentials the scan reads if any, then a ['['], a text without
    [']'], the [']'] and right after it a character that is neither
    [':'] nor ['/'].  A host that does not start with ['['] never leads to
    [NoSlash]. *)
Theorem parseURL_NoSlash_bracket (URL : std_string) :
  parseURL URL = Returned (ParseURL_error LUrlParserError_NoSlash)
  ↔ ∃ cand b cred literal c after,
      scheme_candidate (c_str URL) cand
      ∧ isSchemeValid cand = true
      ∧ c_str URL
        = cand ++ b :: "/" :: "/" :: cred ++ "[" :: literal ++ "]" :: c :: after
      ∧ credentials_split cred ("[" :: literal ++ "]" :: c :: after)
      ∧ ¬ In "]" literal ∧ c ≠ ":" ∧ c ≠ "/".
Proof.
  split.
  - intros Hr.
    assert (Hn : ∃ n, scheme_end (c_str URL) = Returned (at_index n)).
    { unfold parseURL in Hr.
      destruct (scheme_end (c_str URL)) as [[|n]| |] eqn:He; simpl in Hr;
        try discriminate; eauto. }
    destruct Hn as [n Hn]. rewrite (parseURL_from_scheme_end _ _ Hn) in Hr.
    pose proof (scheme_end_candidate _ _ Hn) as Hcand.
    destruct (cut_at n (c_str URL) (scheme_end_index _ _ Hn)) as [b Hcut].
    destruct (negb (isSchemeValid _)) eqn:Hv; [discriminate|].
    apply negb_false_iff in Hv. cbv zeta in Hr.
    destruct (negb (deref _ =? "/")%char) eqn:H1; [discriminate|].
    destruct (negb (deref (next _) =? "/")%char) eqn:H2; [discriminate|].
    at_char H1. at_char H2.
    remember (next (next (skipn (n + 1) (c_str URL)))) as p eqn:Ep. clear Ep.
    remember (firstn n (c_str URL)) as cand eqn:Ec. clear Ec.
    assert (Hs : c_str URL = cand ++ b :: "/" :: "/" :: p) by congruence.
    clear Hcut H1 H2.
    unfold read_authority in Hr.
    destruct (has_user_name p) eqn:Hu.
    + destruct (read_credentials_at p Hu) as [[[u pw] q] Hc].
      rewrite Hc in Hr.
      destruct (read_credentials_delimited _ _ _ _ Hc) as [[Hu1 Hu2] Hpw].
      apply read_credentials_spells in Hc.
      apply read_host_NoSlash in Hr.
      destruct Hr as (literal & c & after & -> & Hl & H3 & H4).
      destruct Hc as [[Hp ->] | Hp].
      * exists cand, b, (u ++ ["@"]), literal, c, after.
        rewrite Hp in Hu. pose proof (has_user_name_true_first _ _ Hu Hu2).
        repeat split; auto.
        -- rewrite Hs, Hp, <- app_assoc. reflexivity.
        -- right. left. exists u. auto.
      * exists cand, b, (u ++ ":" :: pw ++ ["@"]), literal, c, after.
        assert (Hp' : p = (u ++ ":" :: pw) ++ "@" :: "[" :: literal ++ "]" :: c :: after)
          by (rewrite Hp; repeat (rewrite <- app_assoc; simpl); reflexivity).
        rewrite Hp' in Hu.
        assert (Hno : ¬ In "@" (u ++ ":" :: pw)).
        { rewrite in_app_iff. simpl. intuition discriminate. }
        pose proof (has_user_name_true_first _ _ Hu Hno) as Hsl.
        rewrite in_app_iff in Hsl. simpl in Hsl.
        repeat split; auto.
        -- rewrite Hs, Hp. repeat (rewrite <- app_assoc; simpl). reflexivity.
        -- right. right. exists u, pw. repeat split; auto; tauto.
    + apply read_host_NoSlash in Hr.
      destruct Hr as (literal & c & after & -> & Hl & H3 & H4).
      exists cand, b, [], literal, c, after.
      repeat split; auto. left. split; [reflexivity|].
      apply has_user_name_false_inv. exact Hu.
  - intros (cand & b & cred & literal & c & after
            & Hcand & Hv & Hs & Hcred & Hl & H3 & H4).
    apply scheme_candidate_end in Hcand. destruct Hcand as [Hend Hfirst].
    rewrite (parseURL_from_scheme_end _ _ Hend), Hfirst, Hv.
    pose proof (c_str_no_NUL URL) as Hnul. rewrite Hs in Hnul.
    assert (Hskip : skipn (length cand + 1) (c_str URL)
                    = "/" :: "/" :: cred ++ "[" :: literal ++ "]" :: c :: after).
    { rewrite Hs.
      change (b :: "/" :: "/" :: cred ++ "[" :: literal ++ "]" :: c :: after)
        with ([b] ++ "/" :: "/" :: cred ++ "[" :: literal ++ "]" :: c :: after).
      rewrite app_assoc.
      replace (length cand + 1)%nat with (length (cand ++ [b]))
        by (rewrite length_app; reflexivity).
      apply drop_app_length. }
    rewrite Hskip. simpl negb. cbv zeta. simpl deref. simpl next. cbn iota.
    assert (Hc : c ≠ NUL).
    { intros ->. apply Hnul. rewrite in_app_iff. right. simpl.
      do 3 right. rewrite in_app_iff. right. simpl. right.
      rewrite in_app_iff. right. simpl. auto. }
    assert (Hcn : ¬ In NUL cred).
    { intros H. apply Hnul. rewrite in_app_iff. right. simpl.
      do 3 right. rewrite in_app_iff. left. exact H. }
    unfold read_authority.
    destruct Hcred as [[-> Hno] | [(user & -> & Hu1 & Hu2 & Hu3)
                                  | (user & pw & -> & Hu1 & Hu2 & Hu3 & Hp1 & Hp2)]].
    + simpl app. rewrite (has_user_name_false _ Hno).
      apply read_host_after_bracket; auto.
    + rewrite in_app_iff in Hcn.
      assert (Hlook : has_user_name
                        ((user ++ ["@"]) ++ "[" :: literal ++ "]" :: c :: after)
                      = true).
      { rewrite <- app_assoc. simpl. apply has_user_name_with_at.
        intros x Hx. split; intros ->; auto. }
      rewrite Hlook.
      rewrite (read_credentials_written user None).
      * apply read_host_after_bracket; auto.
      * apply none_of_intro. intros x [<-|[<-|[<-|[<-|[]]]]]; tauto.
      * reflexivity.
    + rewrite in_app_iff in Hcn. simpl in Hcn. rewrite in_app_iff in Hcn.
      assert (Hlook : has_user_name
                        ((user ++ ":" :: pw ++ ["@"])
                         ++ "[" :: literal ++ "]" :: c :: after) = true).
      { replace ((user ++ ":" :: pw ++ ["@"])
                 ++ "[" :: literal ++ "]" :: c :: after)
          with ((user ++ ":" :: pw) ++ "@" :: "[" :: literal ++ "]" :: c :: after)
          by (repeat (rewrite <- app_assoc; simpl); reflexivity).
        apply has_user_name_with_at. intros x Hx.
        apply in_app_or in Hx. simpl in Hx.
        split; intros ->; intuition discriminate. }
      rewrite Hlook.
      rewrite (read_credentials_written user (Some pw)).
      * apply read_host_after_bracket; auto.
      * apply none_of_intro. intros x [<-|[<-|[<-|[<-|[]]]]]; tauto.
      * apply none_of_intro. intros x [<-|[<-|[<-|[]]]]; simpl; tauto.
Qed.

Lemma parseURL_NoSlash_bracket_witness :
  parseURL #"http://joe@[::1]8080/"
  = Returned (ParseURL_error LUrlParserError_NoSlash).
Proof.
  apply (proj2 (parseURL_NoSlash_bracket #"http://joe@[::1]8080/")).
  exists #"http", ":", #"joe@", #"::1", "8", #"080/".
  repeat split; try discriminate.
  - left. split; [simpl; intuition discriminate | eexists; reflexivity].
  - right. left. exists #"joe". simpl. intuition discriminate.
  - simpl. intuition discriminate.
Defined.
